(** * index.js: staged scan pipeline and its include-list builders

    A shallow embedding of [src/index.js]:
    - the ['data'] handlers of [buildInclude24s] and [buildIncludeIps]
      (chunk re-framing with a carried remainder, the [seen] set, the
      lines written to [includeFile.txt]);
    - the two builders as promises driven by stream events;
    - [main] and the three scan passes over abstract collaborators
      ([masscan], [minecraftCheck], [simple-git]). *)

From Stdlib Require Import Strings.Ascii Strings.String Strings.Byte.
From stdpp Require Import base numbers list strings pretty gmap.

Local Open Scope string_scope.
Local Open Scope list_scope.
Local Open Scope nat_scope.

#[local] Set Warnings "-clear-no-such-hyp".

(** The line feed that ends every line written, ["\n"] in the source. *)
Definition LF : string := String "010" EmptyString.

(** ** Buffers *)

#[global] Instance byte_eq_decision : EqDecision byte := Byte.byte_eq_dec.

Module Buffer.

(** A Node [Buffer] is a sequence of bytes. *)
Abbreviation t := (list byte).

(** [buf.subarray(s, e)] and [buf.slice(s, e)]: the bytes at indices
    [s] .. [e-1], both ends clamped to the length. *)
Definition subarray (buf : t) (s e : nat) : t := take (e - s) (drop s buf).

(** [buf.slice(s)]: everything from index [s] on. *)
Definition slice (buf : t) (s : nat) : t := drop s buf.

(** [Buffer.concat([a, b])]. *)
Definition concat2 (a b : t) : t := a ++ b.

Definition hex_digit (n : N) : ascii :=
  match n with
  | 0 => "0" | 1 => "1" | 2 => "2" | 3 => "3" | 4 => "4" | 5 => "5"
  | 6 => "6" | 7 => "7" | 8 => "8" | 9 => "9" | 10 => "a" | 11 => "b"
  | 12 => "c" | 13 => "d" | 14 => "e" | _ => "f"
  end%char%N.

(** [buf.toString('hex')]: two lower-case hexadecimal digits per byte. *)
Fixpoint toString_hex (buf : t) : string :=
  match buf with
  | [] => EmptyString
  | b :: rest =>
      String (hex_digit (Byte.to_N b `div` 16))
        (String (hex_digit (Byte.to_N b `mod` 16)) (toString_hex rest))
  end.

(** [`${buf[i]}`] inside a template literal: the decimal rendering of the
    byte, or ["undefined"] when [i] is out of range. *)
Definition tpl_index (buf : t) (i : nat) : string :=
  match buf !! i with
  | Some b => pretty (Byte.to_N b)
  | None => "undefined"
  end.

End Buffer.

(** ** The ['data'] handlers *)

(** [for (let i = 0; i < bound; i += 6) body(i)], the loop of both handlers.
    [fuel] bounds the number of iterations; [bound] iterations always
    suffice (see [for6_fuel]). *)
Fixpoint for6_from {St : Type} (fuel : nat) (bound : nat) (body : nat → St → St)
    (i : nat) (st : St) : St :=
  match fuel with
  | 0 => st
  | S fuel' =>
      if decide (i < bound) then for6_from fuel' bound body (i + 6) (body i st)
      else st
  end.

Definition for6 {St : Type} (bound : nat) (body : nat → St → St) (st : St) : St :=
  for6_from bound bound body 0 st.

(** The variables of a builder that its loop body touches: the [seen] set
    and the writes made to [out] so far, oldest first. *)
Record vars := Vars {
  seen : gset string;
  out : list string
}.

(** What a ['data'] handler closes over: the variables of its loop body and
    [remainder] ([None] is JavaScript's [null]). *)
Record closure (A : Type) := Closure {
  captured : A;
  remainder : option Buffer.t
}.
Arguments Closure {A} _ _.
Arguments captured {A} _.
Arguments remainder {A} _.

(** Loop body of [buildInclude24s]. *)
Definition body24s (chunk : Buffer.t) (i : nat) (v : vars) : vars :=
  let key := Buffer.toString_hex (Buffer.subarray chunk i (i + 3)) in
  if decide (key ∈ seen v) then v
  else Vars ({[key]} ∪ seen v)
            (out v ++ [Buffer.tpl_index chunk i +:+ "." +:+
                       Buffer.tpl_index chunk (i + 1) +:+ "." +:+
                       Buffer.tpl_index chunk (i + 2) +:+ ".0/24" +:+ LF]).

(** Loop body of [buildIncludeIps]. *)
Definition bodyIps (chunk : Buffer.t) (i : nat) (v : vars) : vars :=
  let key := Buffer.toString_hex (Buffer.subarray chunk i (i + 4)) in
  if decide (key ∈ seen v) then v
  else Vars ({[key]} ∪ seen v)
            (out v ++ [Buffer.tpl_index chunk i +:+ "." +:+
                       Buffer.tpl_index chunk (i + 1) +:+ "." +:+
                       Buffer.tpl_index chunk (i + 2) +:+ "." +:+
                       Buffer.tpl_index chunk (i + 3) +:+ LF]).

(** The ['data'] handler, which the two builders share but for the loop
    body ([onData body24s] and [onData bodyIps]): prepend the remainder, run
    the loop over the complete records, keep the tail. *)
Definition onData {A : Type} (body : Buffer.t → nat → A → A)
    (st : closure A) (chunk : Buffer.t) : closure A :=
  let chunk :=
    match remainder st with
    | Some r => Buffer.concat2 r chunk
    | None => chunk
    end in
  Closure
    (for6 (length chunk `div` 6 * 6) (body chunk) (captured st))
    (if decide (length chunk `mod` 6 = 0) then None
     else Some (Buffer.slice chunk (length chunk `div` 6 * 6))).

(** The same handler with a body that only notes which record it was given:
    the record reader on its own. *)
Definition bodyRecord (chunk : Buffer.t) (i : nat) (rs : list Buffer.t) :
    list Buffer.t :=
  rs ++ [Buffer.subarray chunk i (i + 6)].

(** State of a closure when its builder has just been called. *)
Definition fresh : closure vars := Closure (Vars ∅ []) None.

(** Deliver the chunks of one read, in order. *)
Definition feed {A : Type} (body : Buffer.t → nat → A → A)
    (st : closure A) (chunks : list Buffer.t) : closure A :=
  foldl (onData body) st chunks.

(** The records the reader hands to its loop body, over a whole read. *)
Definition emitted (chunks : list Buffer.t) : list Buffer.t :=
  captured (feed bodyRecord (Closure [] None) chunks).

(** ** Reference notions the claims are stated with *)

(** The complete records of a log: the 6-byte grid, cut from the start. *)
Fixpoint records_n (n : nat) (log : Buffer.t) : list Buffer.t :=
  match n with
  | 0 => []
  | S n' => take 6 log :: records_n n' (drop 6 log)
  end.

Definition records (log : Buffer.t) : list Buffer.t :=
  records_n (length log `div` 6) log.

(** Projection of a record to its key: the first [K] bytes. *)
Definition project (K : nat) (rec : Buffer.t) : Buffer.t := take K rec.

(** First occurrences of a list, in order of appearance. *)
Fixpoint first_seen {A : Type} `{EqDecision A} (l : list A) : list A :=
  match l with
  | [] => []
  | x :: l' => x :: filter (λ y, y ≠ x) (first_seen l')
  end.

(** The line of a key, in its two forms. *)
Definition line24 (k : Buffer.t) : string :=
  Buffer.tpl_index k 0 +:+ "." +:+ Buffer.tpl_index k 1 +:+ "." +:+
  Buffer.tpl_index k 2 +:+ ".0/24" +:+ LF.

Definition lineIp (k : Buffer.t) : string :=
  Buffer.tpl_index k 0 +:+ "." +:+ Buffer.tpl_index k 1 +:+ "." +:+
  Buffer.tpl_index k 2 +:+ "." +:+ Buffer.tpl_index k 3 +:+ LF.

(** A loop body reads its record when it looks at nothing of the chunk but
    the six bytes at [i]. *)
Definition reads_record {A : Type} (body : Buffer.t → nat → A → A) : Prop :=
  ∀ chunk i a, i + 6 ≤ length chunk →
    body chunk i a = body (Buffer.subarray chunk i (i + 6)) 0 a.

(** Length of the carried remainder, [null] counting as nothing. *)
Definition remainder_length {A : Type} (st : closure A) : nat :=
  match remainder st with
  | Some r => length r
  | None => 0
  end.

(** What a closure holds once the bytes [pre] have been delivered, however
    they were cut: the body has been run on the records of [pre], and the
    remainder is the tail of [pre] beyond the grid. *)
Definition framed {A : Type} (body : Buffer.t → nat → A → A)
    (a0 : A) (pre : Buffer.t) (st : closure A) : Prop :=
  captured st = foldl (λ s r, body r 0 s) a0 (records pre)
  ∧ remainder st
    = if decide (length pre `mod` 6 = 0) then None
      else Some (drop (length pre `div` 6 * 6) pre).

(** What either loop body does with the key of its record: skip a key
    already seen, otherwise note it and write its line. *)
Definition emit_key (line : Buffer.t → string) (k : Buffer.t) (v : vars) : vars :=
  if decide (Buffer.toString_hex k ∈ seen v) then v
  else Vars ({[Buffer.toString_hex k]} ∪ seen v) (out v ++ [line k]).

(** The keys of a log, one per complete record, in file order. *)
Definition keys (K : nat) (log : Buffer.t) : list Buffer.t :=
  project K <$> records log.

(** ** The builders as promises over stream events *)

(** A JavaScript error, by its code or message. *)
Inductive error := Error (code : string).

Definition ENOENT : error := Error "ENOENT".

(** State of the promise a builder returns; it settles once. *)
Inductive promise := Pending | Resolved | Rejected (e : error).

Definition resolve (p : promise) : promise :=
  match p with Pending => Resolved | _ => p end.

Definition reject (e : error) (p : promise) : promise :=
  match p with Pending => Rejected e | _ => p end.

(** What Node delivers to the two streams of a builder. *)
Inductive event :=
| StreamData (chunk : Buffer.t)   (* ['data'] on [stream] *)
| StreamEnd                       (* ['end'] on [stream] *)
| StreamError (e : error)         (* ['error'] on [stream] *)
| OutError (e : error).           (* ['error'] on [out] *)

(** A builder call in flight. [reading] holds while [stream] exists with its
    handlers and has neither ended nor failed (Node delivers nothing to a
    finished stream). [uncaught] is the exception that ended the process,
    if one did. *)
Record build := Build {
  handlers : closure vars;
  settled : promise;
  reading : bool;
  out_ended : bool;
  uncaught : option error
}.

(** The executor of [buildInclude24s], up to the registration of the
    handlers. [fs.statSync(file)] throws when the file is missing; a throw
    inside an executor rejects the promise, and the lines after it never
    run: no read stream, no handlers. *)
Definition executor24s (files : gmap string (list byte)) (file : string) : build :=
  match files !! file with
  | None => Build fresh (Rejected ENOENT) false false None
  | Some _ => Build fresh Pending true false None
  end.

(** The executor of [buildIncludeIps]: no [statSync]. *)
Definition executorIps (files : gmap string (list byte)) (file : string) : build :=
  Build fresh Pending true false None.

(** One event reaching a builder whose ['data'] handler is [onData body].
    ['end'] runs [out.end(); resolve()], ['error'] on [stream] runs [reject].
    [out] has no ['error'] listener, so Node throws its error: an uncaught
    exception, which ends the process. *)
Definition deliver (body : Buffer.t → nat → vars → vars)
    (b : build) (ev : event) : build :=
  match uncaught b with
  | Some _ => b
  | None =>
      match ev with
      | StreamData chunk =>
          if reading b
          then Build (onData body (handlers b) chunk) (settled b) true
                     (out_ended b) None
          else b
      | StreamEnd =>
          if reading b
          then Build (handlers b) (resolve (settled b)) false true None
          else b
      | StreamError e =>
          if reading b
          then Build (handlers b) (reject e (settled b)) false
                     (out_ended b) None
          else b
      | OutError e =>
          Build (handlers b) (settled b) (reading b) (out_ended b) (Some e)
      end
  end.

Definition buildInclude24s (files : gmap string (list byte)) (file : string)
    (events : list event) : build :=
  foldl (deliver body24s) (executor24s files file) events.

Definition buildIncludeIps (files : gmap string (list byte)) (file : string)
    (events : list event) : build :=
  foldl (deliver bodyIps) (executorIps files file) events.

(** The writes a builder has made to [out]. *)
Definition written (b : build) : list string := out (captured (handlers b)).

(** What a read stream on [file] emits when nothing goes wrong below it:
    the content in chunks and then ['end'], or ['error'] for a missing
    file. The cut into [chunks] is Node's choice. *)
Definition readStream (files : gmap string (list byte)) (file : string)
    (chunks : list Buffer.t) : list event :=
  match files !! file with
  | None => [StreamError ENOENT]
  | Some _ => (StreamData <$> chunks) ++ [StreamEnd]
  end.

(** [chunks] is a way of cutting [log] into non-empty chunks. *)
Definition chunking (log : Buffer.t) (chunks : list Buffer.t) : Prop :=
  concat chunks = log ∧ Forall (λ c, c ≠ []) chunks.

(** [includeFile.txt] once [out] has flushed: [createWriteStream] opens with
    flag ['w'], so the file holds the writes of this call and nothing
    else. *)
Definition includeFile_text (b : build) : string :=
  String.concat EmptyString (written b).

Definition includeFile (b : build) : list byte :=
  String.list_byte_of_string (includeFile_text b).

Definition files_after (files : gmap string (list byte)) (b : build) :
    gmap string (list byte) :=
  <["includeFile.txt" := includeFile b]> files.

(** ** The pipeline *)

(** [config.json], with the options [index.js] reads. *)
Module Config.
Record git_t := Git {
  push : bool;
  username : string;
  email : string;
  url : string;
  branch : string
}.

Record t := Make {
  scanPort : bool;
  scan24s : bool;
  scanAllPorts : bool;
  packetLimit : N;
  sudo : bool;
  git : git_t
}.
End Config.

(** The methods of [simple-git] that [pushToGit] awaits, and the
    constructor [simpleGit()] itself. *)
Inductive git_op :=
| simpleGit
| addConfig (key value : string)
| removeRemote (name : string)
| addRemote (name url : string)
| add (file : string)
| commit (message : string)
| git_push (remote branch : string).

(** Everything [main] asks of the world outside [index.js]. For a builder
    call the world's part is the state of the files and the events of the
    two streams. *)
Inductive call :=
| Masscan (cmd file label : string)
| MinecraftCheck (args : list string)
| Include24s (file : string)
| IncludeIps (file : string)
| Git (op : git_op)
| GitGetRemotes
| DateNow
| ConsoleLog (message : string)
| ConsoleError (message : string) (err : error)
| ProcessExit.

(** How an awaited promise, or a plain call, comes back. *)
Inductive settlement (A : Type) :=
| Fulfilled (a : A)
| Threw (e : error)
| Never.
Arguments Fulfilled {A} _.
Arguments Threw {A} _.
Arguments Never {A}.

Definition reply (c : call) : Type :=
  match c with
  | Masscan _ _ _ | MinecraftCheck _ | Git _ => settlement unit
  | Include24s _ | IncludeIps _ => gmap string (list byte) * list event
  | GitGetRemotes => settlement (list string)
  | DateNow => N
  | ConsoleLog _ | ConsoleError _ _ | ProcessExit => unit
  end.

(** The ways an [async] function stops short of returning: its promise
    rejects, an exception escapes every promise, an [await] never comes
    back, or [process.exit()] ends the process. *)
Inductive halt :=
| Rejects (e : error)
| Crashes (e : error)
| Hangs
| Exits.

(** An [async] function as a tree of calls. *)
Inductive prog (A : Type) :=
| Ret (a : A)
| Stop (h : halt)
| Call (c : call) (k : reply c → prog A).
Arguments Ret {A} _.
Arguments Stop {A} _.
Arguments Call {A} _ _.

Fixpoint bind {A B : Type} (p : prog A) (f : A → prog B) : prog B :=
  match p with
  | Ret a => f a
  | Stop h => Stop h
  | Call c k => Call c (λ r, bind (k r) f)
  end.

#[global] Instance prog_ret : MRet prog := @Ret.
#[global] Instance prog_bind : MBind prog := λ A B f p, bind p f.

(** [try { p } catch (err) { handler(err) }]. *)
Fixpoint try_catch {A : Type} (p : prog A) (handler : error → prog A) : prog A :=
  match p with
  | Stop (Rejects e) => handler e
  | Call c k => Call c (λ r, try_catch (k r) handler)
  | _ => p
  end.

(** [await] on what a collaborator returned. *)
Definition await {A : Type} (s : settlement A) : prog A :=
  match s with
  | Fulfilled a => Ret a
  | Threw e => Stop (Rejects e)
  | Never => Stop Hangs
  end.

(** [await] on a builder's promise, for the events the world delivers. On a
    resolved promise the caller goes on, also when [out] failed after
    ['end']: the process then dies at some later point, which this model
    does not place. *)
Definition await_build (b : build) : prog unit :=
  match settled b with
  | Resolved => Ret ()
  | Rejected e => Stop (Rejects e)
  | Pending =>
      match uncaught b with
      | Some e => Stop (Crashes e)
      | None => Stop Hangs
      end
  end.

Definition masscan (cmd file label : string) : prog unit :=
  Call (Masscan cmd file label) await.

Definition minecraftCheck (args : list string) : prog unit :=
  Call (MinecraftCheck args) await.

Definition git (op : git_op) : prog unit :=
  Call (Git op) await.

Definition git_getRemotes : prog (list string) :=
  Call GitGetRemotes await.

Definition await_buildInclude24s (file : string) : prog unit :=
  Call (Include24s file)
    (λ world, await_build (buildInclude24s world.1 file world.2)).

Definition await_buildIncludeIps (file : string) : prog unit :=
  Call (IncludeIps file)
    (λ world, await_build (buildIncludeIps world.1 file world.2)).

Definition sudo_prefix (config : Config.t) : string :=
  if Config.sudo config then "sudo " else EmptyString.

Definition scanDefaultPort (config : Config.t) : prog unit :=
  let cmd := sudo_prefix config +:+ "masscan -p 25565 0.0.0.0/0 --rate="
             +:+ pretty (Config.packetLimit config)
             +:+ " --excludefile exclude.conf -oJ -" in
  masscan cmd "ipsUnfiltered_pass1" "[1] [Java]" ;;
  minecraftCheck ["ipsUnfiltered_pass1"; "ips"; "[1] [Java]"].

Definition scanNearPorts (config : Config.t) : prog unit :=
  await_buildInclude24s "ips" ;;
  let cmd := sudo_prefix config
             +:+ "masscan -p 25500-25564,25566-25700 --include-file includeFile.txt --rate="
             +:+ pretty (Config.packetLimit config)
             +:+ " --excludefile exclude.conf -oJ -" in
  masscan cmd "ipsUnfiltered_pass2" "[2] [Java]" ;;
  minecraftCheck ["ipsUnfiltered_pass2"; "ips"; "[2] [Java]"; "java"; "a"].

Definition scanAllPorts (config : Config.t) : prog unit :=
  await_buildIncludeIps "ips" ;;
  let cmd := sudo_prefix config
             +:+ "masscan -p 1024-25499,25701-65535 --include-file includeFile.txt --rate="
             +:+ pretty (Config.packetLimit config)
             +:+ " --excludefile exclude.conf -oJ -" in
  masscan cmd "ipsUnfiltered_pass3" "[3] [Java]" ;;
  minecraftCheck ["ipsUnfiltered_pass3"; "ips"; "[3] [Java]"; "java"; "a"].

(** The body of the [try] block of [pushToGit]. *)
Definition pushToGit_try (config : Config.t) : prog unit :=
  git simpleGit ;;
  git (addConfig "user.name" (Config.username (Config.git config))) ;;
  git (addConfig "user.email" (Config.email (Config.git config))) ;;
  remotes ← git_getRemotes;
  (if decide ("origin" ∈ remotes) then git (removeRemote "origin")
   else Ret ()) ;;
  git (addRemote "origin" (Config.url (Config.git config))) ;;
  git (add "ips") ;;
  now ← Call DateNow Ret;
  git (commit (pretty (now `div` 1000)%N)) ;;
  git (git_push "origin" (Config.branch (Config.git config))) ;;
  Call (ConsoleLog "Pushed to repo.") Ret.

Definition pushToGit (config : Config.t) : prog unit :=
  try_catch (pushToGit_try config)
    (λ err, Call (ConsoleError "Error pushing to repo:" err) Ret).

Definition main (config : Config.t) : prog unit :=
  (if Config.scanPort config then scanDefaultPort config else Ret ()) ;;
  (if Config.scan24s config then scanNearPorts config else Ret ()) ;;
  (if Config.scanAllPorts config then scanAllPorts config else Ret ()) ;;
  (if Config.push (Config.git config) then pushToGit config else Ret ()) ;;
  Call ProcessExit (λ _, Stop Exits).

(** One call with what came back. *)
Record step := Step {
  called : call;
  got : reply called
}.

(** The world: what it answers to a call, given everything so far. *)
Definition world : Type := list step → ∀ c : call, reply c.

(** How a run ends. *)
Inductive ending (A : Type) :=
| Returned (a : A)
| Halted (h : halt).
Arguments Returned {A} _.
Arguments Halted {A} _.

(** Run a program against a world, from the history [h]: the steps it
    takes, oldest first, and its ending. *)
Fixpoint run {A : Type} (w : world) (p : prog A) (h : list step) :
    list step * ending A :=
  match p with
  | Ret a => ([], Returned a)
  | Stop hl => ([], Halted hl)
  | Call c k =>
      let r := w h c in
      let rest := run w (k r) (h ++ [Step c r]) in
      (Step c r :: rest.1, rest.2)
  end.

(** ** Reading a run *)

(** A program that never makes a call in [P], whatever the world answers. *)
Fixpoint avoids {A : Type} (P : call → Prop) (p : prog A) : Prop :=
  match p with
  | Call c k => ¬ P c ∧ ∀ r, avoids P (k r)
  | _ => True
  end.

(** A program in which an answer in [bad] is always the end: the
    continuation is a halt in [stop], with no further call. *)
Fixpoint stops_on {A : Type} (bad : ∀ c, reply c → Prop) (stop : halt → Prop)
    (p : prog A) : Prop :=
  match p with
  | Call c k =>
      ∀ r, (bad c r → ∃ hl, stop hl ∧ k r = Stop hl) ∧ stops_on bad stop (k r)
  | _ => True
  end.

(** The calls of Stage 2 (subnet list, neighbour-port scan, its validator)
    and of Stage 3, told by builder and by pass file. *)
Definition stage2 (c : call) : Prop :=
  match c with
  | Include24s _ => True
  | Masscan _ file _ => file = "ipsUnfiltered_pass2"
  | MinecraftCheck (file :: _) => file = "ipsUnfiltered_pass2"
  | _ => False
  end.

Definition stage3 (c : call) : Prop :=
  match c with
  | IncludeIps _ => True
  | Masscan _ file _ => file = "ipsUnfiltered_pass3"
  | MinecraftCheck (file :: _) => file = "ipsUnfiltered_pass3"
  | _ => False
  end.

(** A scan, a validation or a target-list build that failed: the awaited
    promise did not fulfil. *)
Definition failed (c : call) : reply c → Prop :=
  match c with
  | Masscan _ _ _ | MinecraftCheck _ => λ r, r ≠ Fulfilled ()
  | Include24s file =>
      λ world, settled (buildInclude24s world.1 file world.2) ≠ Resolved
  | IncludeIps file =>
      λ world, settled (buildIncludeIps world.1 file world.2) ≠ Resolved
  | _ => λ _, False
  end.

(** The calls of the publish step that can fail: those on [simple-git]. *)
Definition publish (c : call) : Prop :=
  match c with
  | Git _ | GitGetRemotes => True
  | _ => False
  end.

(** A call of the publish step that threw [err]. *)
Definition publish_threw (err : error) (c : call) : reply c → Prop :=
  match c with
  | Git _ => λ r, r = Threw err
  | GitGetRemotes => λ r, r = Threw err
  | _ => λ _, False
  end.





(** Decimal digits, as [`${n}`] prints a byte. *)
Definition is_digit (c : ascii) : bool :=
  match c with
  | "0" | "1" | "2" | "3" | "4" | "5" | "6" | "7" | "8" | "9" => true
  | _ => false
  end%char.

Fixpoint digits (s : string) : bool :=
  match s with
  | EmptyString => true
  | String c s' => is_digit c && digits s'
  end.

(** A line: characters other than newline, then one newline. *)
Fixpoint is_line (s : string) : bool :=
  match s with
  | EmptyString => false
  | String c s' =>
      if Ascii.eqb c "010" then bool_decide (s' = EmptyString) else is_line s'
  end.

(** The lines of a text, each with its newline (a last line without one is
    kept as it is). *)
Fixpoint text_lines (s : string) : list string :=
  match s with
  | EmptyString => []
  | String c s' =>
      if Ascii.eqb c "010" then String c EmptyString :: text_lines s'
      else match text_lines s' with
           | [] => [String c EmptyString]
           | l :: ls => String c l :: ls
           end
  end.

#[global] Instance chunking_dec log chunks : Decision (chunking log chunks).
Proof. unfold chunking. apply _. Defined.

(** ** Sample inputs *)

(** Three records, for 10.0.0.1, 10.0.0.2 and 10.1.0.1, and one more for
    10.0.0.1 on another port. *)
Definition sample_log : Buffer.t :=
  [x0a; x00; x00; x01; x63; xdd;  x0a; x00; x00; x02; x63; xdd;
   x0a; x01; x00; x01; x63; xdd;  x0a; x00; x00; x01; x63; xde].

(** A cut of [sample_log] that respects no record boundary. *)
Definition sample_chunks : list Buffer.t :=
  [[x0a; x00; x00; x01; x63]; [xdd]; [x0a; x00; x00; x02; x63; xdd; x0a; x01];
   [x00; x01; x63; xdd; x0a; x00; x00; x01; x63; xde]].

Definition sample_files : gmap string (list byte) := {["ips" := sample_log]}.

(** A configuration with Stage 2 switched off and publishing on. *)
Definition sample_config : Config.t :=
  Config.Make true false true 1000 false
    (Config.Git true "bot" "bot@example.org" "https://example.org/r.git" "main").

(** A world in which every collaborator succeeds and the log is
    [sample_log]. *)
Definition calm : world := λ _ c,
  match c return reply c with
  | Masscan _ _ _ | MinecraftCheck _ | Git _ => Fulfilled ()
  | Include24s file | IncludeIps file =>
      (sample_files, readStream sample_files file [sample_log])
  | GitGetRemotes => Fulfilled ["origin"]
  | DateNow => 1700000000000%N
  | ConsoleLog _ | ConsoleError _ _ | ProcessExit => ()
  end.

(** The same world, but [git.push] is refused. *)
Definition push_refused : world := λ h c,
  match c return reply c with
  | Git (git_push _ _) => Threw (Error "auth")
  | c => calm h c
  end.

(** The same world, but the first scan dies. *)
Definition scan_dies : world := λ h c,
  match c return reply c with
  | Masscan _ _ _ => Threw (Error "masscan exited")
  | c => calm h c
  end.




(** ** Order of the steps of a run *)

(** How a program can end, and the last step taken by then ([prev], the
    step before the program, when it takes none). *)
Fixpoint ends {A : Type} (p : prog A) (prev : option step) (e : ending A)
    (last : option step) : Prop :=
  match p with
  | Ret a => e = Returned a ∧ last = prev
  | Stop hl => e = Halted hl ∧ last = prev
  | Call c k => ∃ r, ends (k r) (Some (Step c r)) e last
  end.

(** A program each step of which [G] allows after the step before it. *)
Fixpoint guarded {A : Type} (G : option step → step → Prop)
    (prev : option step) (p : prog A) : Prop :=
  match p with
  | Call c k => ∀ r, G prev (Step c r) ∧ guarded G (Some (Step c r)) (k r)
  | _ => True
  end.

(** The same for the steps of a run. *)
Fixpoint chain (G : option step → step → Prop) (prev : option step)
    (t : list step) : Prop :=
  match t with
  | [] => True
  | s :: t' => G prev s ∧ chain G (Some s) t'
  end.

(** The last step of [t], or [prev] when [t] is empty. *)
Definition last_or (prev : option step) (t : list step) : option step :=
  match last t with
  | Some s => Some s
  | None => prev
  end.

(** A program all of whose halts are in [L]. *)
Fixpoint halts_in {A : Type} (L : halt → Prop) (p : prog A) : Prop :=
  match p with
  | Ret _ => True
  | Stop hl => L hl
  | Call c k => ∀ r, halts_in L (k r)
  end.

(** The stage a call belongs to: 1 to 3 for the scan passes (told by pass
    file and by builder), 4 for publishing, 5 for [process.exit()]. *)
Definition stage_of_file (file : string) : nat :=
  if decide (file = "ipsUnfiltered_pass1") then 1
  else if decide (file = "ipsUnfiltered_pass2") then 2
  else if decide (file = "ipsUnfiltered_pass3") then 3
  else 0.

Definition stage_of (c : call) : nat :=
  match c with
  | Masscan _ file _ => stage_of_file file
  | MinecraftCheck (file :: _) => stage_of_file file
  | MinecraftCheck [] => 0
  | Include24s _ => 2
  | IncludeIps _ => 3
  | Git _ | GitGetRemotes | DateNow | ConsoleLog _ | ConsoleError _ _ => 4
  | ProcessExit => 5
  end.

Definition stage_of_step (prev : option step) : nat :=
  match prev with
  | Some s => stage_of (called s)
  | None => 0
  end.

(** Stages come in order. *)
Definition in_order (prev : option step) (s : step) : Prop :=
  stage_of_step prev ≤ stage_of (called s).

(** What must come right before a scan or a validation: before the
    validator, the scan that wrote its input file, fulfilled; before a scan
    of pass 2 or 3, the build of its include list, resolved. *)
Definition gated (prev : option step) (s : step) : Prop :=
  match called s with
  | MinecraftCheck (file :: _) =>
      ∃ cmd label, prev = Some (Step (Masscan cmd file label) (Fulfilled ()))
  | Masscan _ file _ =>
      (file = "ipsUnfiltered_pass2" →
       ∃ world, prev = Some (Step (Include24s "ips") world)
                ∧ settled (buildInclude24s world.1 "ips" world.2) = Resolved)
      ∧ (file = "ipsUnfiltered_pass3" →
         ∃ world, prev = Some (Step (IncludeIps "ips") world)
                  ∧ settled (buildIncludeIps world.1 "ips" world.2) = Resolved)
  | _ => True
  end.

(** What must come right before each message of [pushToGit]. *)
Definition reported (prev : option step) (s : step) : Prop :=
  match called s with
  | ConsoleLog message =>
      message = "Pushed to repo."
      ∧ ∃ remote branch,
          prev = Some (Step (Git (git_push remote branch)) (Fulfilled ()))
  | ConsoleError message err =>
      message = "Error pushing to repo:"
      ∧ ∃ c r, prev = Some (Step c r) ∧ publish_threw err c r
  | _ => True
  end.

(** What must come right before the calls of [pushToGit] that change the
    repository, and what they may name. *)
Definition prepared (prev : option step) (s : step) : Prop :=
  match called s with
  | Git (removeRemote name) =>
      name = "origin"
      ∧ ∃ names, prev = Some (Step GitGetRemotes (Fulfilled names))
                 ∧ "origin" ∈ names
  | Git (addRemote name _) =>
      name = "origin"
      ∧ ((∃ names, prev = Some (Step GitGetRemotes (Fulfilled names))
                   ∧ "origin" ∉ names)
         ∨ prev = Some (Step (Git (removeRemote "origin")) (Fulfilled ())))
  | Git (add file) => file = "ips"
  | Git (commit message) =>
      ∃ now : N, prev = Some (Step DateNow now)
                 ∧ message = pretty (now `div` 1000)%N
  | Git (git_push remote _) => remote = "origin"
  | _ => True
  end.

(** The calls of Stage 1, and the calls of [pushToGit]. *)
Definition stage1 (c : call) : Prop :=
  match c with
  | Masscan _ file _ => file = "ipsUnfiltered_pass1"
  | MinecraftCheck (file :: _) => file = "ipsUnfiltered_pass1"
  | _ => False
  end.

Definition stage4 (c : call) : Prop :=
  match c with
  | Git _ | GitGetRemotes | DateNow | ConsoleLog _ | ConsoleError _ _ => True
  | _ => False
  end.

(** A call of the publish step whose promise never settles. *)
Definition unsettled (c : call) : reply c → Prop :=
  match c with
  | Git _ => λ r, r = Never
  | GitGetRemotes => λ r, r = Never
  | _ => λ _, False
  end.

(** A last step at which a run is stuck: a scan, a validation or a build
    that failed, or a publish call that never settled. *)
Definition stalled (last : option step) : Prop :=
  match last with
  | Some s => failed (called s) (got s) ∨ unsettled (called s) (got s)
  | None => False
  end.

(** The place of a call in the text of [main], its callees inlined. *)
Definition place (c : call) : nat :=
  match c with
  | Masscan _ file _ => 3 * stage_of_file file - 1
  | MinecraftCheck (file :: _) => 3 * stage_of_file file
  | MinecraftCheck [] => 0
  | Include24s _ => 4
  | IncludeIps _ => 7
  | Git simpleGit => 10
  | Git (addConfig key _) => if decide (key = "user.name") then 11 else 12
  | GitGetRemotes => 13
  | Git (removeRemote _) => 14
  | Git (addRemote _ _) => 15
  | Git (add _) => 16
  | DateNow => 17
  | Git (commit _) => 18
  | Git (git_push _ _) => 19
  | ConsoleLog _ => 20
  | ConsoleError _ _ => 21
  | ProcessExit => 22
  end.

Definition place_of_step (prev : option step) : nat :=
  match prev with
  | Some s => place (called s)
  | None => 0
  end.

(** Each step comes later in the text than the step before it. *)
Definition onward (prev : option step) (s : step) : Prop :=
  place_of_step prev < place (called s).

(** The first two steps of every run with pass 1 switched on and
    [packetLimit] 1000, when the scan fulfils. *)
Definition first_scan : step :=
  Step (Masscan "masscan -p 25565 0.0.0.0/0 --rate=1000 --excludefile exclude.conf -oJ -"
          "ipsUnfiltered_pass1" "[1] [Java]") (Fulfilled ()).

Definition first_check : step :=
  Step (MinecraftCheck ["ipsUnfiltered_pass1"; "ips"; "[1] [Java]"])
    (Fulfilled ()).

(** * Properties *)

(** ** The loop *)

Lemma foldl_pointwise {A B} (f g : A → B → A) (l : list B) (a : A) :
  (∀ a b, f a b = g a b) → foldl f a l = foldl g a l.
Proof.
  intros Hfg. revert a. induction l as [|b l IH]; intros a; [done|].
  simpl. by rewrite Hfg, IH.
Qed.

Section Loop.
Context {St : Type} (body : nat → St → St).

(** With [n] iterations left to the bound and at least as much fuel, the
    loop runs the body at [i], [i+6], ..., [i+6(n-1)] and stops on its
    condition. *)
Lemma for6_from_unroll n : ∀ fuel bound i st,
  n ≤ fuel → bound = i + 6 * n →
  for6_from fuel bound body i st
  = foldl (λ s j, body (i + 6 * j) s) st (seq 0 n).
Proof.
  induction n as [|n IH]; intros fuel bound i st Hf Hb.
  - destruct fuel; simpl; [done|]. case_decide; [lia|done].
  - destruct fuel as [|fuel]; [lia|]. cbn [for6_from].
    case_decide; [|lia].
    rewrite (IH fuel bound (i + 6)) by lia.
    cbn [seq foldl]. rewrite Nat.mul_0_r, Nat.add_0_r.
    rewrite <-(fmap_S_seq 0 n), foldl_fmap.
    apply foldl_pointwise. intros s j. f_equal. lia.
Qed.

Lemma for6_unroll n st :
  for6 (n * 6) body st = foldl (λ s j, body (6 * j) s) st (seq 0 n).
Proof. unfold for6. apply for6_from_unroll; lia. Qed.

(** Fuel never decides: more of it changes nothing. *)
Lemma for6_fuel n fuel st :
  n * 6 ≤ fuel → for6_from fuel (n * 6) body 0 st = for6 (n * 6) body st.
Proof.
  intros Hf. unfold for6. rewrite !(for6_from_unroll n) by lia. done.
Qed.
End Loop.

(** ** Arithmetic of the 6-byte grid *)

Lemma div6_unique q r :
  r < 6 → (6 * q + r) `div` 6 = q ∧ (6 * q + r) `mod` 6 = r.
Proof.
  intros Hr.
  destruct (Nat.div_mod_unique 6 q ((6 * q + r) `div` 6)
              r ((6 * q + r) `mod` 6)) as [H1 H2]; [done| | |by split].
  - apply Nat.mod_upper_bound; lia.
  - apply Nat.div_mod_eq.
Qed.

Lemma div6_spec a :
  a = 6 * (a `div` 6) + a `mod` 6 ∧ a `mod` 6 < 6.
Proof.
  split; [apply Nat.div_mod_eq|apply Nat.mod_upper_bound; lia].
Qed.

Lemma div6_add q x :
  (6 * q + x) `div` 6 = q + x `div` 6 ∧ (6 * q + x) `mod` 6 = x `mod` 6.
Proof.
  destruct (div6_spec x) as [Hx Hr].
  destruct (div6_unique (q + x `div` 6) (x `mod` 6) Hr) as [Hd Hm].
  replace (6 * q + x) with (6 * (q + x `div` 6) + x `mod` 6) by lia.
  done.
Qed.

(** ** Records of a buffer *)

Lemma records_n_length n : ∀ log, length (records_n n log) = n.
Proof. induction n as [|n IH]; intros log; simpl; [done|]. by rewrite IH. Qed.

Lemma records_length log : length (records log) = length log `div` 6.
Proof. apply records_n_length. Qed.

Lemma records_n_lookup n : ∀ log j,
  j < n → records_n n log !! j = Some (take 6 (drop (6 * j) log)).
Proof.
  induction n as [|n IH]; intros log j Hj; [lia|].
  destruct j as [|j]; simpl; [done|].
  rewrite IH by lia. rewrite drop_drop. do 3 f_equal. lia.
Qed.

Lemma records_n_app n : ∀ m a b,
  length a = 6 * n →
  records_n (n + m) (a ++ b) = records_n n a ++ records_n m b.
Proof.
  induction n as [|n IH]; intros m a b Ha; simpl.
  - by destruct a.
  - rewrite take_app_le, drop_app_le by lia. f_equal.
    apply IH. rewrite length_drop. lia.
Qed.

Lemma records_n_take n : ∀ log m,
  6 * n ≤ m → records_n n (take m log) = records_n n log.
Proof.
  induction n as [|n IH]; intros log m Hm; simpl; [done|].
  rewrite take_take, Nat.min_l by lia. f_equal.
  rewrite <-(IH (drop 6 log) (m - 6)) by lia.
  f_equal. rewrite skipn_firstn_comm. done.
Qed.

Lemma records_n_concat n : ∀ log,
  6 * n ≤ length log → concat (records_n n log) = take (6 * n) log.
Proof.
  induction n as [|n IH]; intros log Hn; simpl; [done|].
  rewrite IH by (rewrite length_drop; lia).
  replace (n + S (n + S (n + S (n + S (n + S (n + 0)))))) with (5 + 6 * n) by lia.
  rewrite <-(take_drop 6 log) at 3.
  rewrite take_app_ge by (rewrite length_take; lia).
  rewrite length_take, Nat.min_l by lia. do 2 f_equal. lia.
Qed.

(** Every record is six bytes long. *)
Lemma records_n_six n : ∀ log r,
  6 * n ≤ length log → r ∈ records_n n log → length r = 6.
Proof.
  induction n as [|n IH]; intros log r Hn; simpl.
  - by intros ?%elem_of_nil.
  - intros [->|Hr]%elem_of_cons.
    + rewrite length_take. lia.
    + apply (IH (drop 6 log)); [rewrite length_drop; lia|done].
Qed.

Lemma records_six log r : r ∈ records log → length r = 6.
Proof.
  apply records_n_six. destruct (div6_spec (length log)). lia.
Qed.

(** Appending to a log adds records and never changes the earlier ones. *)
Lemma records_app pre chunk :
  records (pre ++ chunk)
  = records pre
    ++ records (drop (length pre `div` 6 * 6) pre ++ chunk).
Proof.
  destruct (div6_spec (length pre)) as [Hpre Hr].
  set (q := length pre `div` 6) in *.
  set (tl := drop (q * 6) pre).
  assert (length tl = length pre `mod` 6) as Htl
    by (unfold tl; rewrite length_drop; lia).
  assert (pre ++ chunk = take (q * 6) pre ++ (tl ++ chunk)) as ->
    by (unfold tl; by rewrite app_assoc, take_drop).
  unfold records at 1.
  rewrite length_app, length_take, Nat.min_l by lia.
  replace (q * 6) with (6 * q) by lia.
  destruct (div6_add q (length (tl ++ chunk))) as [-> _].
  rewrite records_n_app by (rewrite length_take; lia).
  rewrite records_n_take by lia. done.
Qed.

(** ** The handler re-frames any chunking onto the grid *)

Section Framing.
Context {A : Type} (body : Buffer.t → nat → A → A).
Hypothesis body_reads : reads_record body.

(** One run of the loop hands the body the records of the chunk. *)
Lemma loop_records_from chunk n : ∀ k a,
  6 * (k + n) ≤ length chunk →
  foldl (λ s j, body chunk (6 * j) s) a (seq k n)
  = foldl (λ s r, body r 0 s) a (records_n n (drop (6 * k) chunk)).
Proof.
  induction n as [|n IH]; intros k a Hk; [done|].
  cbn [seq foldl records_n].
  rewrite body_reads by lia.
  unfold Buffer.subarray at 1.
  replace (6 * k + 6 - 6 * k) with 6 by lia.
  rewrite IH by lia. rewrite drop_drop.
  by replace (6 * S k) with (6 * k + 6) by lia.
Qed.

Lemma loop_records chunk a :
  for6 (length chunk `div` 6 * 6) (body chunk) a
  = foldl (λ s r, body r 0 s) a (records chunk).
Proof.
  rewrite for6_unroll. destruct (div6_spec (length chunk)).
  by rewrite (loop_records_from chunk _ 0) by lia.
Qed.

Lemma framed_onData a0 pre st chunk :
  framed body a0 pre st → framed body a0 (pre ++ chunk) (onData body st chunk).
Proof.
  intros [Hc Hr].
  destruct (div6_spec (length pre)) as [Hpre Hlt].
  set (tl := drop (length pre `div` 6 * 6) pre) in *.
  assert (length tl = length pre `mod` 6) as Htl
    by (unfold tl; rewrite length_drop; lia).
  assert (match remainder st with
          | Some r => Buffer.concat2 r chunk
          | None => chunk
          end = tl ++ chunk) as Hin.
  { rewrite Hr. case_decide; [|done].
    destruct tl; [done|simpl in *; lia]. }
  unfold onData. rewrite Hin. clear Hin.
  assert (length (pre ++ chunk)
          = 6 * (length pre `div` 6) + length (tl ++ chunk)) as Hlen
    by (rewrite !length_app; lia).
  destruct (div6_add (length pre `div` 6) (length (tl ++ chunk)))
    as [Hd Hm].
  rewrite <-Hlen in Hd, Hm.
  split; cbn [captured remainder].
  - rewrite loop_records, Hc, (records_app pre chunk), foldl_app. done.
  - rewrite Hm.
    destruct (decide (length (tl ++ chunk) `mod` 6 = 0)); [done|].
    f_equal. unfold Buffer.slice.
    rewrite Hd.
    assert (pre ++ chunk
            = take (length pre `div` 6 * 6) pre ++ (tl ++ chunk)) as Hsplit
      by (unfold tl; by rewrite app_assoc, take_drop).
    rewrite Hsplit.
    rewrite (drop_app_ge (take _ pre)) by (rewrite length_take; lia).
    rewrite length_take. f_equal. lia.
Qed.

Lemma framed_feed a0 chunks : ∀ pre st,
  framed body a0 pre st →
  framed body a0 (pre ++ concat chunks) (feed body st chunks).
Proof.
  induction chunks as [|c chunks IH]; intros pre st Hst; simpl.
  - by rewrite app_nil_r.
  - rewrite app_assoc. by apply IH, framed_onData.
Qed.

Lemma framed_start a0 : framed body a0 [] (Closure a0 None).
Proof. by split. Qed.

(** The variables after a whole read depend on the bytes delivered alone. *)
Lemma feed_captured a0 chunks :
  captured (feed body (Closure a0 None) chunks)
  = foldl (λ s r, body r 0 s) a0 (records (concat chunks)).
Proof. by destruct (framed_feed a0 chunks [] _ (framed_start a0)). Qed.

Lemma feed_remainder a0 chunks :
  remainder (feed body (Closure a0 None) chunks)
  = if decide (length (concat chunks) `mod` 6 = 0) then None
    else Some (drop (length (concat chunks) `div` 6 * 6) (concat chunks)).
Proof. by destruct (framed_feed a0 chunks [] _ (framed_start a0)). Qed.
End Framing.

Lemma bodyRecord_reads : reads_record bodyRecord.
Proof.
  intros chunk i rs Hi. unfold bodyRecord, Buffer.subarray. f_equal. f_equal.
  replace (i + 6 - i) with 6 by lia. simpl.
  rewrite drop_0, take_take. done.
Qed.

Lemma emitted_records chunks : emitted chunks = records (concat chunks).
Proof.
  unfold emitted. rewrite (feed_captured _ bodyRecord_reads).
  generalize (records_six (concat chunks)).
  generalize (records (concat chunks)) as rs.
  induction rs as [|r rs IH] using rev_ind; intros Hsix; [done|].
  rewrite foldl_snoc, IH by (intros; apply Hsix; set_solver).
  unfold bodyRecord, Buffer.subarray. simpl. rewrite drop_0. do 2 f_equal.
  apply take_ge. rewrite Hsix by set_solver. lia.
Qed.

(** ** Keys *)

Lemma hex_digit_inj x y :
  (x < 16)%N → (y < 16)%N → Buffer.hex_digit x = Buffer.hex_digit y → x = y.
Proof. compute; intros. by repeat (discriminate || case_match). Qed.

Lemma byte_to_N_inj b1 b2 : Byte.to_N b1 = Byte.to_N b2 → b1 = b2.
Proof.
  intros H. pose proof (Byte.of_to_N b1) as H1.
  rewrite H, Byte.of_to_N in H1. by injection H1.
Qed.

(** Distinct keys have distinct hexadecimal renderings, so the [seen] set
    tells keys apart exactly. *)
Lemma toString_hex_inj k1 : ∀ k2,
  Buffer.toString_hex k1 = Buffer.toString_hex k2 → k1 = k2.
Proof.
  induction k1 as [|b1 k1 IH]; intros [|b2 k2]; simpl; try done.
  intros [= Hhi Hlo Hrest]. f_equal; [|by apply IH].
  apply byte_to_N_inj.
  pose proof (Byte.to_N_bounded b1). pose proof (Byte.to_N_bounded b2).
  apply hex_digit_inj in Hhi, Hlo;
    try (apply N.mod_upper_bound; lia);
    try (apply N.Div0.div_lt_upper_bound; lia).
  rewrite (N.div_mod (Byte.to_N b1) 16), (N.div_mod (Byte.to_N b2) 16) by lia.
  lia.
Qed.

Lemma tpl_index_take buf n i :
  i < n → Buffer.tpl_index (take n buf) i = Buffer.tpl_index buf i.
Proof. intros Hi. unfold Buffer.tpl_index. by rewrite lookup_take_lt. Qed.

Lemma tpl_index_record chunk i j :
  j < 6 →
  Buffer.tpl_index (Buffer.subarray chunk i (i + 6)) j
  = Buffer.tpl_index chunk (i + j).
Proof.
  intros Hj. unfold Buffer.tpl_index, Buffer.subarray.
  replace (i + 6 - i) with 6 by lia.
  by rewrite lookup_take_lt, lookup_drop.
Qed.

Lemma subarray_record chunk i n :
  n ≤ 6 →
  Buffer.subarray (Buffer.subarray chunk i (i + 6)) 0 n
  = Buffer.subarray chunk i (i + n).
Proof.
  intros Hn. unfold Buffer.subarray.
  replace (i + 6 - i) with 6 by lia. replace (i + n - i) with n by lia.
  rewrite Nat.sub_0_r, drop_0, take_take. f_equal. lia.
Qed.

Lemma body24s_reads : reads_record body24s.
Proof.
  intros chunk i v Hi. unfold body24s. simpl (0 + _).
  rewrite (subarray_record chunk i 3) by lia.
  rewrite !(tpl_index_record chunk i 0), !(tpl_index_record chunk i 1),
    !(tpl_index_record chunk i 2) by lia.
  by rewrite Nat.add_0_r.
Qed.

Lemma bodyIps_reads : reads_record bodyIps.
Proof.
  intros chunk i v Hi. unfold bodyIps. simpl (0 + _).
  rewrite (subarray_record chunk i 4) by lia.
  rewrite !(tpl_index_record chunk i 0), !(tpl_index_record chunk i 1),
    !(tpl_index_record chunk i 2), !(tpl_index_record chunk i 3) by lia.
  by rewrite Nat.add_0_r.
Qed.

(** On a record, each body is [emit_key] at the record's key. *)
Lemma body24s_emit rec v :
  body24s rec 0 v = emit_key line24 (project 3 rec) v.
Proof.
  unfold body24s, emit_key, line24, project, Buffer.subarray. simpl.
  rewrite drop_0. by rewrite !tpl_index_take by lia.
Qed.

Lemma bodyIps_emit rec v :
  bodyIps rec 0 v = emit_key lineIp (project 4 rec) v.
Proof.
  unfold bodyIps, emit_key, lineIp, project, Buffer.subarray. simpl.
  rewrite drop_0. by rewrite !tpl_index_take by lia.
Qed.

(** ** First occurrences *)

Section FirstSeen.
Context {A : Type} `{EqDecision A}.
Implicit Types l : list A.

Lemma filter_ne_filter (Q : A → Prop) `{∀ x, Decision (Q x)} x l :
  filter (λ y, y ≠ x) (filter Q l) = filter Q (filter (λ y, y ≠ x) l).
Proof.
  rewrite !list_filter_filter. apply list_filter_iff. intros y. tauto.
Qed.

Lemma first_seen_filter (Q : A → Prop) `{∀ x, Decision (Q x)} l :
  filter Q (first_seen l) = first_seen (filter Q l).
Proof.
  induction l as [|x l IH]; [done|]. simpl.
  rewrite !filter_cons. destruct (decide (Q x)) as [Hx|Hx]; simpl.
  - by rewrite <-IH, filter_ne_filter.
  - rewrite <-IH, list_filter_filter. apply list_filter_iff.
    intros y. split; [tauto|]. intros Hy. split; [done|]. by intros ->.
Qed.

Lemma elem_of_first_seen l x : x ∈ first_seen l ↔ x ∈ l.
Proof.
  induction l as [|y l IH]; [done|]. simpl.
  rewrite !elem_of_cons, list_elem_of_filter, IH.
  destruct (decide (x = y)); tauto.
Qed.

Lemma NoDup_first_seen l : NoDup (first_seen l).
Proof.
  induction l as [|y l IH]; simpl; [constructor|].
  constructor; [|by apply NoDup_filter].
  rewrite list_elem_of_filter. tauto.
Qed.

Lemma first_seen_length l : length (first_seen l) ≤ length l.
Proof.
  induction l as [|y l IH]; simpl; [done|].
  pose proof (length_filter (λ z, z ≠ y) (first_seen l)). lia.
Qed.

(** [x] comes before [y] in [l]: some occurrence of [x] has [y] after it. *)
Lemma precedes_filter (Q : A → Prop) `{∀ x, Decision (Q x)} l i j x y :
  i < j → l !! i = Some x → l !! j = Some y → Q x → Q y →
  ∃ i' j', i' < j' ∧ filter Q l !! i' = Some x ∧ filter Q l !! j' = Some y.
Proof.
  intros Hij Hi Hj Hx Hy.
  apply list_elem_of_split_length in Hi as (l1 & l2 & -> & ->).
  rewrite lookup_app_r in Hj by lia. rewrite lookup_cons_ne_0 in Hj by lia.
  apply list_elem_of_split_length in Hj as (l3 & l4 & -> & Hl3).
  exists (length (filter Q l1)), (S (length (filter Q l1) + length (filter Q l3))).
  rewrite filter_app, filter_cons, decide_True by done.
  rewrite filter_app, filter_cons, decide_True by done.
  split; [lia|]. split.
  - rewrite lookup_app_r by lia. by rewrite Nat.sub_diag.
  - rewrite lookup_app_r by lia.
    replace (S (length (filter Q l1) + length (filter Q l3))
             - length (filter Q l1)) with (S (length (filter Q l3))) by lia.
    simpl. rewrite lookup_app_r by lia. by rewrite Nat.sub_diag.
Qed.

(** Order of first occurrences is kept: if [x] first shows up at [i], [y]
    first shows up at [j] and [i < j], then [x] is before [y] among the
    first occurrences. *)
Lemma first_seen_order l : ∀ i j x y,
  i < j →
  l !! i = Some x → (∀ i', i' < i → l !! i' ≠ Some x) →
  l !! j = Some y → (∀ j', j' < j → l !! j' ≠ Some y) →
  ∃ i' j', i' < j'
    ∧ first_seen l !! i' = Some x ∧ first_seen l !! j' = Some y.
Proof.
  induction l as [|z l IH]; intros i j x y Hij Hi Hfi Hj Hfj; [done|].
  destruct j as [|j]; [lia|]. simpl in Hj.
  assert (y ≠ z) as Hyz.
  { intros ->. by apply (Hfj 0); [lia|]. }
  destruct i as [|i]; simpl in Hi.
  - injection Hi as ->.
    assert (y ∈ filter (λ w, w ≠ x) (first_seen l)) as Hy.
    { rewrite list_elem_of_filter, elem_of_first_seen.
      split; [done|]. by eapply list_elem_of_lookup_2. }
    apply list_elem_of_lookup_1 in Hy as [j' Hj'].
    exists 0, (S j'). simpl. split; [lia|done].
  - assert (x ≠ z) as Hxz.
    { intros ->. by apply (Hfi 0); [lia|]. }
    destruct (IH i j x y) as (i' & j' & Hlt & Hi' & Hj'); [lia|done| |done| |].
    + intros i0 Hi0. apply (Hfi (S i0)). lia.
    + intros j0 Hj0. apply (Hfj (S j0)). lia.
    + destruct (precedes_filter (λ w, w ≠ z) (first_seen l) i' j' x y)
        as (i'' & j'' & ? & ? & ?); [done..|].
      exists (S i''), (S j''). simpl. split; [lia|done].
Qed.
End FirstSeen.

(** ** The [seen] set keeps first occurrences *)

Section Emit.
Context (line : Buffer.t → string).

Lemma emit_key_seen k v :
  Buffer.toString_hex k ∈ seen v → emit_key line k v = v.
Proof. intros. unfold emit_key. by rewrite decide_True. Qed.

Lemma emit_key_new k v :
  Buffer.toString_hex k ∉ seen v →
  emit_key line k v
  = Vars ({[Buffer.toString_hex k]} ∪ seen v) (out v ++ [line k]).
Proof. intros. unfold emit_key. by rewrite decide_False. Qed.

Lemma foldl_emit_out ks : ∀ v,
  out (foldl (λ s k, emit_key line k s) v ks)
  = out v
    ++ (line <$> first_seen
                   (filter (λ k, Buffer.toString_hex k ∉ seen v) ks)).
Proof.
  induction ks as [|k ks IH]; intros v; simpl.
  - by rewrite app_nil_r.
  - rewrite filter_cons.
    destruct (decide (Buffer.toString_hex k ∈ seen v)) as [Hin|Hnin].
    + rewrite emit_key_seen, IH by done. by rewrite decide_False by tauto.
    + rewrite emit_key_new, IH by done. rewrite decide_True by done.
      cbn [seen out first_seen fmap list_fmap].
      rewrite <-app_assoc. cbn [app]. do 3 f_equal.
      rewrite first_seen_filter, list_filter_filter. f_equal.
      apply list_filter_iff. intros k'.
      rewrite not_elem_of_union, not_elem_of_singleton.
      split.
      * intros [Hk' ?]. split; [|done]. by intros ->.
      * intros [Hk' ?]. split; [|done]. by intros ?%toString_hex_inj.
Qed.

Lemma foldl_emit_fresh ks :
  out (foldl (λ s k, emit_key line k s) (Vars ∅ []) ks)
  = line <$> first_seen ks.
Proof.
  rewrite foldl_emit_out. simpl. do 2 f_equal.
  induction ks as [|k ks IH]; [done|].
  rewrite filter_cons, decide_True by set_solver. by rewrite IH.
Qed.
End Emit.

(** What each builder has written after a read, whatever the chunking. *)
Lemma feed24s_out chunks :
  out (captured (feed body24s fresh chunks))
  = line24 <$> first_seen (keys 3 (concat chunks)).
Proof.
  unfold fresh. rewrite (feed_captured _ body24s_reads).
  rewrite (foldl_pointwise _ (λ s r, emit_key line24 (project 3 r) s))
    by (intros; apply body24s_emit).
  unfold keys. by rewrite <-foldl_emit_fresh, foldl_fmap.
Qed.

Lemma feedIps_out chunks :
  out (captured (feed bodyIps fresh chunks))
  = lineIp <$> first_seen (keys 4 (concat chunks)).
Proof.
  unfold fresh. rewrite (feed_captured _ bodyIps_reads).
  rewrite (foldl_pointwise _ (λ s r, emit_key lineIp (project 4 r) s))
    by (intros; apply bodyIps_emit).
  unfold keys. by rewrite <-foldl_emit_fresh, foldl_fmap.
Qed.

(** ** Lines *)

Lemma pretty_byte_digits b : digits (pretty (Byte.to_N b)) = true.
Proof. destruct b; vm_compute; reflexivity. Qed.

(** Two renderings that agree up to a separator agree on each side of it. *)
Lemma digits_sep_inj c s1 : ∀ s2 t1 t2,
  is_digit c = false → digits s1 = true → digits s2 = true →
  s1 +:+ String c t1 = s2 +:+ String c t2 → s1 = s2 ∧ t1 = t2.
Proof.
  intros s2 t1 t2 Hc. revert s2.
  induction s1 as [|d1 s1 IH]; intros [|d2 s2]; simpl; intros H1 H2 Heq.
  - by injection Heq.
  - injection Heq as -> _. apply andb_true_iff in H2 as [H2 _]. congruence.
  - injection Heq as <- _. apply andb_true_iff in H1 as [H1 _]. congruence.
  - injection Heq as -> Htl.
    apply andb_true_iff in H1 as [_ H1]. apply andb_true_iff in H2 as [_ H2].
    by destruct (IH s2 H1 H2 Htl) as [-> ->].
Qed.

Lemma pretty_byte_sep_inj c b1 b2 t1 t2 :
  is_digit c = false →
  pretty (Byte.to_N b1) +:+ String c t1 = pretty (Byte.to_N b2) +:+ String c t2 →
  b1 = b2 ∧ t1 = t2.
Proof.
  intros Hc Heq.
  apply digits_sep_inj in Heq as [Hb ->];
    [|done|apply pretty_byte_digits..].
  split; [|done]. by apply byte_to_N_inj, (inj pretty).
Qed.

Lemma line24_inj k1 k2 :
  length k1 = 3 → length k2 = 3 → line24 k1 = line24 k2 → k1 = k2.
Proof.
  destruct k1 as [|a1 [|b1 [|c1 [|]]]]; try done.
  destruct k2 as [|a2 [|b2 [|c2 [|]]]]; try done.
  intros _ _. unfold line24, Buffer.tpl_index. cbn [lookup list_lookup].
  intros H.
  apply (pretty_byte_sep_inj "." a1 a2) in H as [-> H]; [|done].
  apply (pretty_byte_sep_inj "." b1 b2) in H as [-> H]; [|done].
  apply (pretty_byte_sep_inj "." c1 c2) in H as [-> H]; [|done].
  done.
Qed.

Lemma lineIp_inj k1 k2 :
  length k1 = 4 → length k2 = 4 → lineIp k1 = lineIp k2 → k1 = k2.
Proof.
  destruct k1 as [|a1 [|b1 [|c1 [|d1 [|]]]]]; try done.
  destruct k2 as [|a2 [|b2 [|c2 [|d2 [|]]]]]; try done.
  intros _ _. unfold lineIp, Buffer.tpl_index. cbn [lookup list_lookup].
  intros H.
  apply (pretty_byte_sep_inj "." a1 a2) in H as [-> H]; [|done].
  apply (pretty_byte_sep_inj "." b1 b2) in H as [-> H]; [|done].
  apply (pretty_byte_sep_inj "." c1 c2) in H as [-> H]; [|done].
  apply (pretty_byte_sep_inj "010" d1 d2) in H as [-> H]; [|done].
  done.
Qed.

(** Keys have the width of their projection. *)
Lemma keys_length K log k : K ≤ 6 → k ∈ keys K log → length k = K.
Proof.
  intros HK (r & -> & Hr)%list_elem_of_fmap.
  unfold project. rewrite length_take, (records_six log r) by done. lia.
Qed.

Lemma keys_count K log : length (keys K log) = length log `div` 6.
Proof. unfold keys. by rewrite length_fmap, records_length. Qed.

Lemma is_line_digits d rest : digits d = true → is_line (d +:+ rest) = is_line rest.
Proof.
  induction d as [|c d IH]; simpl; [done|].
  intros [Hc Hd]%andb_true_iff. rewrite IH by done.
  by destruct (Ascii.eqb_spec c "010") as [->|].
Qed.

Lemma is_line_dot rest : is_line ("." +:+ rest) = is_line rest.
Proof. done. Qed.

Lemma line24_is_line k : length k = 3 → is_line (line24 k) = true.
Proof.
  destruct k as [|a [|b [|c [|]]]]; try done. intros _.
  unfold line24, Buffer.tpl_index. cbn [lookup list_lookup].
  rewrite (is_line_digits (pretty _)), is_line_dot by apply pretty_byte_digits.
  rewrite (is_line_digits (pretty _)), is_line_dot by apply pretty_byte_digits.
  by rewrite (is_line_digits (pretty _)) by apply pretty_byte_digits.
Qed.

Lemma lineIp_is_line k : length k = 4 → is_line (lineIp k) = true.
Proof.
  destruct k as [|a [|b [|c [|d [|]]]]]; try done. intros _.
  unfold lineIp, Buffer.tpl_index. cbn [lookup list_lookup].
  rewrite (is_line_digits (pretty _)), is_line_dot by apply pretty_byte_digits.
  rewrite (is_line_digits (pretty _)), is_line_dot by apply pretty_byte_digits.
  rewrite (is_line_digits (pretty _)), is_line_dot by apply pretty_byte_digits.
  by rewrite (is_line_digits (pretty _)) by apply pretty_byte_digits.
Qed.

Lemma text_lines_line l : ∀ rest,
  is_line l = true → text_lines (l +:+ rest) = l :: text_lines rest.
Proof.
  induction l as [|c l IH]; intros rest; simpl; [done|].
  destruct (Ascii.eqb c "010").
  - intros ->%bool_decide_eq_true. done.
  - intros Hl. by rewrite IH.
Qed.

Lemma append_empty_r s : s +:+ EmptyString = s.
Proof.
  induction s as [|c s IH]; [done|].
  change (String c s +:+ EmptyString) with (String c (s +:+ EmptyString)). by rewrite IH.
Qed.

(** Writing lines one after the other gives a text with those lines. *)
Lemma text_lines_concat ls :
  Forall (λ l, is_line l = true) ls → text_lines (String.concat EmptyString ls) = ls.
Proof.
  induction 1 as [|l ls Hl Hls IH]; [done|].
  destruct ls as [|l' ls].
  - cbn [String.concat]. rewrite <-(append_empty_r l) at 1.
    by rewrite text_lines_line.
  - change (String.concat EmptyString (l :: l' :: ls))
      with (l +:+ EmptyString +:+ String.concat EmptyString (l' :: ls)).
    change (EmptyString +:+ String.concat EmptyString (l' :: ls))
      with (String.concat EmptyString (l' :: ls)).
    by rewrite text_lines_line, IH.
Qed.

(** ** The builders, event by event *)

Section Deliver.
Context (body : Buffer.t → nat → vars → vars).

Lemma deliver_data st p oe chunks :
  foldl (deliver body) (Build st p true oe None) (StreamData <$> chunks)
  = Build (feed body st chunks) p true oe None.
Proof.
  revert st. induction chunks as [|c chunks IH]; intros st; [done|].
  rewrite fmap_cons. cbn [foldl feed].
  change (deliver body (Build st p true oe None) (StreamData c))
    with (Build (onData body st c) p true oe None).
  by rewrite IH.
Qed.

(** A read that goes through: every chunk, then ['end']. *)
Lemma deliver_read st chunks :
  foldl (deliver body) (Build st Pending true false None)
    ((StreamData <$> chunks) ++ [StreamEnd])
  = Build (feed body st chunks) Resolved false true None.
Proof. by rewrite foldl_app, deliver_data. Qed.

(** Once the process is gone, nothing is delivered. *)
Lemma deliver_uncaught b e events :
  uncaught b = Some e → foldl (deliver body) b events = b.
Proof.
  intros Hb. induction events as [|ev events IH]; [done|].
  simpl. unfold deliver at 2. by rewrite Hb.
Qed.

(** A settled promise stays as it is. *)
Lemma deliver_settled b events :
  settled b ≠ Pending → settled (foldl (deliver body) b events) = settled b.
Proof.
  revert b. induction events as [|ev events IH]; intros b Hb; [done|].
  simpl. rewrite IH.
  - unfold deliver. destruct (uncaught b), ev, (reading b); try done;
      simpl; by destruct (settled b).
  - unfold deliver. destruct (uncaught b), ev, (reading b); try done;
      simpl; by destruct (settled b).
Qed.

(** With no read stream (or a finished one) the closure is left alone. *)
Lemma deliver_not_reading b events :
  reading b = false → handlers (foldl (deliver body) b events) = handlers b.
Proof.
  revert b. induction events as [|ev events IH]; intros b Hb; [done|].
  cbn [foldl]. rewrite IH.
  - unfold deliver. rewrite Hb. by destruct (uncaught b), ev.
  - unfold deliver. rewrite Hb. by destruct (uncaught b), ev.
Qed.

(** An error of [out] settles nothing. *)
Lemma deliver_OutError_settled b e :
  settled (deliver body b (OutError e)) = settled b.
Proof. unfold deliver. by destruct (uncaught b). Qed.

(** An error of the read stream, with the process alive and the promise
    pending, rejects. *)
Lemma deliver_read_error st chunks e :
  foldl (deliver body) (Build st Pending true false None)
    ((StreamData <$> chunks) ++ [StreamError e])
  = Build (feed body st chunks) (Rejected e) false false None.
Proof. by rewrite foldl_app, deliver_data. Qed.
End Deliver.

Lemma buildInclude24s_read files file log chunks :
  files !! file = Some log →
  buildInclude24s files file (readStream files file chunks)
  = Build (feed body24s fresh chunks) Resolved false true None.
Proof.
  intros Hf. unfold buildInclude24s, readStream, executor24s.
  rewrite Hf. apply deliver_read.
Qed.

Lemma buildIncludeIps_read files file log chunks :
  files !! file = Some log →
  buildIncludeIps files file (readStream files file chunks)
  = Build (feed bodyIps fresh chunks) Resolved false true None.
Proof.
  intros Hf. unfold buildIncludeIps, readStream, executorIps.
  rewrite Hf. apply deliver_read.
Qed.

Lemma written24s_read files file log chunks :
  files !! file = Some log → concat chunks = log →
  written (buildInclude24s files file (readStream files file chunks))
  = line24 <$> first_seen (keys 3 log).
Proof.
  intros Hf <-. rewrite (buildInclude24s_read _ _ _ _ Hf).
  apply feed24s_out.
Qed.

Lemma writtenIps_read files file log chunks :
  files !! file = Some log → concat chunks = log →
  written (buildIncludeIps files file (readStream files file chunks))
  = lineIp <$> first_seen (keys 4 log).
Proof.
  intros Hf <-. rewrite (buildIncludeIps_read _ _ _ _ Hf).
  apply feedIps_out.
Qed.

(** * The builders *)

(** C1. A log of exactly [N] records, cut into non-empty chunks in any way:
    the reader hands its loop body exactly [N] records, the same sequence as
    when the whole log comes as one chunk; the record number [j] is the six
    bytes of the log at offset [6 j], so the records lie on the grid, tile
    the log and do not overlap; and each builder has written what it writes
    after a one-chunk read. *)
Theorem reader_framing (log : Buffer.t) (N : nat) (chunks : list Buffer.t) :
  length log = N * 6 → chunking log chunks →
  emitted chunks = emitted [log]
  ∧ length (emitted chunks) = N
  ∧ (∀ j, j < N →
       emitted chunks !! j = Some (Buffer.subarray log (6 * j) (6 * j + 6)))
  ∧ concat (emitted chunks) = log
  ∧ (∀ files file, files !! file = Some log →
       written (buildInclude24s files file (readStream files file chunks))
       = written (buildInclude24s files file (readStream files file [log]))
       ∧ written (buildIncludeIps files file (readStream files file chunks))
         = written (buildIncludeIps files file (readStream files file [log]))).
Proof.
  intros Hlen [Hcat _].
  assert (length log `div` 6 = N) as Hdiv
    by (rewrite Hlen; apply Nat.div_mul; lia).
  rewrite !emitted_records, Hcat. simpl. rewrite app_nil_r.
  split; [done|]. split; [by rewrite records_length|].
  split; [|split].
  - intros j Hj. unfold records. rewrite Hdiv, records_n_lookup by done.
    unfold Buffer.subarray. do 2 f_equal. lia.
  - unfold records. rewrite Hdiv, records_n_concat by lia.
    apply take_ge. lia.
  - intros files file Hf.
    rewrite !(written24s_read files file log), !(writtenIps_read files file log);
      simpl; rewrite ?app_nil_r; done.
Qed.

Lemma reader_framing_witness :
  emitted sample_chunks = emitted [sample_log]
  ∧ length (emitted sample_chunks) = 4
  ∧ (∀ j, j < 4 →
       emitted sample_chunks !! j
       = Some (Buffer.subarray sample_log (6 * j) (6 * j + 6)))
  ∧ concat (emitted sample_chunks) = sample_log
  ∧ (∀ files file, files !! file = Some sample_log →
       written (buildInclude24s files file (readStream files file sample_chunks))
       = written (buildInclude24s files file (readStream files file [sample_log]))
       ∧ written (buildIncludeIps files file (readStream files file sample_chunks))
         = written (buildIncludeIps files file (readStream files file [sample_log]))).
Proof.
  apply (reader_framing sample_log 4 sample_chunks).
  - reflexivity.
  - apply (bool_decide_unpack _). vm_compute. reflexivity.
Defined.

(** C2. Any log, either builder: the lines written are no more than the
    complete records of the log; they are pairwise different and are the
    lines of pairwise different keys of the log; and the lines of the file,
    as a text, are these writes. *)
Theorem dedup_bound (files : gmap string (list byte)) (file : string)
    (log : Buffer.t) (chunks : list Buffer.t) :
  files !! file = Some log → chunking log chunks →
  let b24 := buildInclude24s files file (readStream files file chunks) in
  let bIp := buildIncludeIps files file (readStream files file chunks) in
  (length (written b24) ≤ length log `div` 6
   ∧ NoDup (written b24)
   ∧ text_lines (includeFile_text b24) = written b24
   ∧ ∃ ks, NoDup ks ∧ (∀ k, k ∈ ks → k ∈ keys 3 log)
           ∧ written b24 = line24 <$> ks)
  ∧ (length (written bIp) ≤ length log `div` 6
     ∧ NoDup (written bIp)
     ∧ text_lines (includeFile_text bIp) = written bIp
     ∧ ∃ ks, NoDup ks ∧ (∀ k, k ∈ ks → k ∈ keys 4 log)
             ∧ written bIp = lineIp <$> ks).
Proof.
  intros Hf [Hcat _]. cbn zeta. unfold includeFile_text.
  rewrite (written24s_read files file log), (writtenIps_read files file log)
    by done.
  split.
  - split; [|split; [|split]].
    + rewrite length_fmap, <-(keys_count 3). apply first_seen_length.
    + apply NoDup_fmap_2_strong; [|apply NoDup_first_seen].
      intros k1 k2 H1 H2. rewrite elem_of_first_seen in H1, H2.
      apply line24_inj; apply (keys_length 3 log); (lia || done).
    + apply text_lines_concat, Forall_fmap, Forall_forall.
      intros k Hk. rewrite elem_of_first_seen in Hk.
      apply line24_is_line, (keys_length 3 log); (lia || done).
    + exists (first_seen (keys 3 log)).
      split; [apply NoDup_first_seen|]. split; [|done].
      intros k Hk. by rewrite elem_of_first_seen in Hk.
  - split; [|split; [|split]].
    + rewrite length_fmap, <-(keys_count 4). apply first_seen_length.
    + apply NoDup_fmap_2_strong; [|apply NoDup_first_seen].
      intros k1 k2 H1 H2. rewrite elem_of_first_seen in H1, H2.
      apply lineIp_inj; apply (keys_length 4 log); (lia || done).
    + apply text_lines_concat, Forall_fmap, Forall_forall.
      intros k Hk. rewrite elem_of_first_seen in Hk.
      apply lineIp_is_line, (keys_length 4 log); (lia || done).
    + exists (first_seen (keys 4 log)).
      split; [apply NoDup_first_seen|]. split; [|done].
      intros k Hk. by rewrite elem_of_first_seen in Hk.
Qed.

Lemma sample_files_ips : sample_files !! "ips" = Some sample_log.
Proof. vm_compute. reflexivity. Defined.

Lemma sample_chunking : chunking sample_log sample_chunks.
Proof. apply (bool_decide_unpack _). vm_compute. reflexivity. Defined.

Lemma dedup_bound_witness :
  sample_files !! "ips" = Some sample_log
  ∧ chunking sample_log sample_chunks
  ∧ length (written (buildInclude24s sample_files "ips"
                       (readStream sample_files "ips" sample_chunks))) ≤ 4
  ∧ NoDup (written (buildIncludeIps sample_files "ips"
                      (readStream sample_files "ips" sample_chunks))).
Proof.
  split; [exact sample_files_ips|]. split; [exact sample_chunking|].
  pose proof (dedup_bound sample_files "ips" sample_log sample_chunks
                sample_files_ips sample_chunking) as [[H24 _] [_ [HIp _]]].
  split; [exact H24|exact HIp].
Defined.

(** C3. Any log, either builder: the lines come in the order in which their
    keys first appear in the log. If [k1] first appears at record [i], [k2]
    first appears at record [j] and [i < j], then the line of [k1] is
    written before the line of [k2]; and the lines written are those of the
    keys of the log, each once (C2). *)
Theorem first_appearance_order (files : gmap string (list byte)) (file : string)
    (log : Buffer.t) (chunks : list Buffer.t) :
  files !! file = Some log → chunking log chunks →
  let b24 := buildInclude24s files file (readStream files file chunks) in
  let bIp := buildIncludeIps files file (readStream files file chunks) in
  (∀ i j k1 k2,
     keys 3 log !! i = Some k1 → (∀ i', i' < i → keys 3 log !! i' ≠ Some k1) →
     keys 3 log !! j = Some k2 → (∀ j', j' < j → keys 3 log !! j' ≠ Some k2) →
     i < j →
     ∃ i' j', i' < j' ∧ written b24 !! i' = Some (line24 k1)
                      ∧ written b24 !! j' = Some (line24 k2))
  ∧ (∀ i j k1 k2,
       keys 4 log !! i = Some k1 → (∀ i', i' < i → keys 4 log !! i' ≠ Some k1) →
       keys 4 log !! j = Some k2 → (∀ j', j' < j → keys 4 log !! j' ≠ Some k2) →
       i < j →
       ∃ i' j', i' < j' ∧ written bIp !! i' = Some (lineIp k1)
                        ∧ written bIp !! j' = Some (lineIp k2))
  ∧ (∀ l, l ∈ written b24 ↔ ∃ k, k ∈ keys 3 log ∧ l = line24 k)
  ∧ (∀ l, l ∈ written bIp ↔ ∃ k, k ∈ keys 4 log ∧ l = lineIp k).
Proof.
  intros Hf [Hcat _]. cbn zeta.
  rewrite (written24s_read files file log), (writtenIps_read files file log)
    by done.
  split; [|split; [|split]].
  - intros i j k1 k2 Hi Hfi Hj Hfj Hij.
    destruct (first_seen_order (keys 3 log) i j k1 k2)
      as (i' & j' & Hlt & Hi' & Hj'); [done..|].
    exists i', j'. rewrite !list_lookup_fmap, Hi', Hj'. done.
  - intros i j k1 k2 Hi Hfi Hj Hfj Hij.
    destruct (first_seen_order (keys 4 log) i j k1 k2)
      as (i' & j' & Hlt & Hi' & Hj'); [done..|].
    exists i', j'. rewrite !list_lookup_fmap, Hi', Hj'. done.
  - intros l. rewrite list_elem_of_fmap.
    setoid_rewrite elem_of_first_seen.
    split; intros (k & ? & ?); by exists k.
  - intros l. rewrite list_elem_of_fmap.
    setoid_rewrite elem_of_first_seen.
    split; intros (k & ? & ?); by exists k.
Qed.

Lemma first_appearance_order_witness :
  sample_files !! "ips" = Some sample_log
  ∧ chunking sample_log sample_chunks
  ∧ ∃ i' j', i' < j'
      ∧ written (buildInclude24s sample_files "ips"
                   (readStream sample_files "ips" sample_chunks)) !! i'
        = Some (line24 [x0a; x00; x00])
      ∧ written (buildInclude24s sample_files "ips"
                   (readStream sample_files "ips" sample_chunks)) !! j'
        = Some (line24 [x0a; x01; x00]).
Proof.
  split; [exact sample_files_ips|]. split; [exact sample_chunking|].
  refine (proj1 (first_appearance_order sample_files "ips" sample_log
                   sample_chunks sample_files_ips sample_chunking)
            0 2 [x0a; x00; x00] [x0a; x01; x00] _ _ _ _ _).
  - reflexivity.
  - intros i' Hi'. lia.
  - reflexivity.
  - intros [|[|j']] Hj'; [vm_compute; discriminate..|lia].
  - lia.
Defined.

(** C4. A build run twice on the same, unmodified log, in the same mode:
    the second run leaves [includeFile.txt], and every other file, exactly
    as the first run left them, whatever the chunking of either read. The
    second call starts from an empty [seen] and no writes, and the file
    holds the writes of the second call alone. *)
Theorem rebuild_identical (files : gmap string (list byte)) (file : string)
    (log : Buffer.t) (chunks1 chunks2 : list Buffer.t) :
  file ≠ "includeFile.txt" → files !! file = Some log →
  chunking log chunks1 → chunking log chunks2 →
  (let b1 := buildInclude24s files file (readStream files file chunks1) in
   let files1 := files_after files b1 in
   let b2 := buildInclude24s files1 file (readStream files1 file chunks2) in
   files1 !! file = Some log
   ∧ handlers (executor24s files1 file) = Closure (Vars ∅ []) None
   ∧ includeFile b2 = includeFile b1
   ∧ files_after files1 b2 = files1
   ∧ files_after files1 b2 !! "includeFile.txt"
     = Some (String.list_byte_of_string (String.concat EmptyString (written b2))))
  ∧ (let b1 := buildIncludeIps files file (readStream files file chunks1) in
     let files1 := files_after files b1 in
     let b2 := buildIncludeIps files1 file (readStream files1 file chunks2) in
     files1 !! file = Some log
     ∧ handlers (executorIps files1 file) = Closure (Vars ∅ []) None
     ∧ includeFile b2 = includeFile b1
     ∧ files_after files1 b2 = files1
     ∧ files_after files1 b2 !! "includeFile.txt"
       = Some (String.list_byte_of_string (String.concat EmptyString (written b2)))).
Proof.
  intros Hne Hf [Hc1 _] [Hc2 _]. split; cbn zeta.
  - set (b1 := buildInclude24s files file (readStream files file chunks1)).
    assert (files_after files b1 !! file = Some log) as Hf1
      by (unfold files_after; by rewrite lookup_insert_ne).
    set (b2 := buildInclude24s (files_after files b1) file
                 (readStream (files_after files b1) file chunks2)).
    assert (includeFile b2 = includeFile b1) as Hsame.
    { unfold includeFile, includeFile_text, b1, b2.
      by rewrite (written24s_read _ file log), (written24s_read _ file log). }
    split; [done|]. split; [unfold executor24s; by rewrite Hf1|].
    split; [done|]. split.
    + unfold files_after. by rewrite Hsame, insert_insert_eq.
    + unfold files_after at 1. by rewrite lookup_insert_eq.
  - set (b1 := buildIncludeIps files file (readStream files file chunks1)).
    assert (files_after files b1 !! file = Some log) as Hf1
      by (unfold files_after; by rewrite lookup_insert_ne).
    set (b2 := buildIncludeIps (files_after files b1) file
                 (readStream (files_after files b1) file chunks2)).
    assert (includeFile b2 = includeFile b1) as Hsame.
    { unfold includeFile, includeFile_text, b1, b2.
      by rewrite (writtenIps_read _ file log), (writtenIps_read _ file log). }
    split; [done|]. split; [done|].
    split; [done|]. split.
    + unfold files_after. by rewrite Hsame, insert_insert_eq.
    + unfold files_after at 1. by rewrite lookup_insert_eq.
Qed.

Lemma rebuild_identical_witness :
  "ips" ≠ "includeFile.txt"
  ∧ sample_files !! "ips" = Some sample_log
  ∧ chunking sample_log sample_chunks
  ∧ chunking sample_log [sample_log]
  ∧ includeFile
      (buildInclude24s
         (files_after sample_files
            (buildInclude24s sample_files "ips"
               (readStream sample_files "ips" sample_chunks)))
         "ips"
         (readStream
            (files_after sample_files
               (buildInclude24s sample_files "ips"
                  (readStream sample_files "ips" sample_chunks)))
            "ips" [sample_log]))
    = includeFile
        (buildInclude24s sample_files "ips"
           (readStream sample_files "ips" sample_chunks)).
Proof.
  assert ("ips" ≠ "includeFile.txt") as Hne by discriminate.
  assert (chunking sample_log [sample_log]) as Hone
    by (apply (bool_decide_unpack _); vm_compute; reflexivity).
  split; [exact Hne|]. split; [exact sample_files_ips|].
  split; [exact sample_chunking|]. split; [exact Hone|].
  exact (proj1 (proj2 (proj2 (proj1
    (rebuild_identical sample_files "ips" sample_log sample_chunks
       [sample_log] Hne sample_files_ips sample_chunking Hone))))).
Defined.

(** C5. The record [{192,168,1,17,99,99}] alone: the subnet builder writes
    the one line [192.168.1.0/24] and the host builder the one line
    [192.168.1.17], each ended by a newline. In general a lone record
    [a b c d p q] gives [a.b.c.0/24] and [a.b.c.d], in decimal, and in any
    log every line written is the line of the first 3 (or 4) bytes of a
    record and is newline-terminated. *)
Theorem projection_lines :
  (∀ files file,
     files !! file = Some [xc0; xa8; x01; x11; x63; x63] →
     written (buildInclude24s files file
                (readStream files file [[xc0; xa8; x01; x11; x63; x63]]))
     = ["192.168.1.0/24" +:+ LF]
     ∧ written (buildIncludeIps files file
                  (readStream files file [[xc0; xa8; x01; x11; x63; x63]]))
       = ["192.168.1.17" +:+ LF])
  ∧ (∀ files file a b c d p q,
       files !! file = Some [a; b; c; d; p; q] →
       written (buildInclude24s files file
                  (readStream files file [[a; b; c; d; p; q]]))
       = [pretty (Byte.to_N a) +:+ "." +:+ pretty (Byte.to_N b) +:+ "."
          +:+ pretty (Byte.to_N c) +:+ ".0/24" +:+ LF]
       ∧ written (buildIncludeIps files file
                    (readStream files file [[a; b; c; d; p; q]]))
         = [pretty (Byte.to_N a) +:+ "." +:+ pretty (Byte.to_N b) +:+ "."
            +:+ pretty (Byte.to_N c) +:+ "." +:+ pretty (Byte.to_N d)
            +:+ LF])
  ∧ (∀ files file log chunks l,
       files !! file = Some log → concat chunks = log →
       (l ∈ written (buildInclude24s files file (readStream files file chunks)) →
        is_line l = true
        ∧ ∃ r, r ∈ records log ∧ l = line24 (Buffer.subarray r 0 3))
       ∧ (l ∈ written (buildIncludeIps files file (readStream files file chunks)) →
          is_line l = true
          ∧ ∃ r, r ∈ records log ∧ l = lineIp (Buffer.subarray r 0 4))).
Proof.
  split; [|split].
  - intros files file Hf.
    rewrite (buildInclude24s_read _ _ _ _ Hf), (buildIncludeIps_read _ _ _ _ Hf).
    split; vm_compute; reflexivity.
  - intros files file a b c d p q Hf.
    rewrite (buildInclude24s_read _ _ _ _ Hf), (buildIncludeIps_read _ _ _ _ Hf).
    unfold written. cbn [handlers]. rewrite feed24s_out, feedIps_out.
    split; reflexivity.
  - intros files file log chunks l Hf Hcat.
    rewrite (written24s_read files file log), (writtenIps_read files file log)
      by done.
    rewrite !list_elem_of_fmap. setoid_rewrite elem_of_first_seen.
    unfold keys. setoid_rewrite list_elem_of_fmap.
    split; intros (k & -> & r & -> & Hr).
    + split; [|by exists r].
      apply line24_is_line. unfold project.
      rewrite length_take, (records_six log r) by done. lia.
    + split; [|by exists r].
      apply lineIp_is_line. unfold project.
      rewrite length_take, (records_six log r) by done. lia.
Qed.

Lemma keys_complete K log :
  keys K (take (length log `div` 6 * 6) log) = keys K log.
Proof.
  unfold keys, records. destruct (div6_spec (length log)) as [Hl Hr].
  rewrite length_take, Nat.min_l by lia.
  rewrite Nat.div_mul by lia. by rewrite records_n_take by lia.
Qed.

Lemma remainder_length_feed {A} (body : Buffer.t → nat → A → A) a0 chunks :
  reads_record body →
  remainder_length (feed body (Closure a0 None) chunks)
  = length (concat chunks) `mod` 6.
Proof.
  intros Hb. unfold remainder_length. rewrite (feed_remainder _ Hb).
  destruct (div6_spec (length (concat chunks))) as [Hl Hr].
  case_decide; [done|]. rewrite length_drop. lia.
Qed.

(** C6. A log whose length is not a multiple of 6, either builder: the
    build resolves, with no error anywhere; the lines written are those of
    the complete records, the [len mod 6] bytes of the tail giving none;
    at ['end'] the tail sits in [remainder] and is dropped there. Between
    chunks the remainder holds at most 5 bytes (as many as the bytes
    delivered so far, modulo 6). *)
Theorem partial_tail_discarded (files : gmap string (list byte)) (file : string)
    (log : Buffer.t) (chunks : list Buffer.t) :
  files !! file = Some log → length log `mod` 6 ≠ 0 → chunking log chunks →
  (let b := buildInclude24s files file (readStream files file chunks) in
   settled b = Resolved ∧ uncaught b = None
   ∧ written b
     = line24 <$> first_seen (keys 3 (take (length log `div` 6 * 6) log))
   ∧ length (written b) ≤ length log `div` 6
   ∧ remainder (handlers b) = Some (drop (length log `div` 6 * 6) log))
  ∧ (let b := buildIncludeIps files file (readStream files file chunks) in
     settled b = Resolved ∧ uncaught b = None
     ∧ written b
       = lineIp <$> first_seen (keys 4 (take (length log `div` 6 * 6) log))
     ∧ length (written b) ≤ length log `div` 6
     ∧ remainder (handlers b) = Some (drop (length log `div` 6 * 6) log))
  ∧ (∀ n,
       remainder_length (feed body24s fresh (take n chunks))
       = length (concat (take n chunks)) `mod` 6
       ∧ remainder_length (feed bodyIps fresh (take n chunks))
         = length (concat (take n chunks)) `mod` 6
       ∧ length (concat (take n chunks)) `mod` 6 ≤ 5).
Proof.
  intros Hf Hmod [Hcat _]. cbn zeta. split; [|split].
  - rewrite keys_complete, <-(written24s_read files file log chunks) by done.
    rewrite (buildInclude24s_read _ _ _ _ Hf). unfold written.
    cbn [handlers settled uncaught].
    split; [done|]. split; [done|]. split; [done|]. split.
    + rewrite feed24s_out, length_fmap, Hcat, <-(keys_count 3).
      apply first_seen_length.
    + unfold fresh. rewrite (feed_remainder _ body24s_reads), Hcat.
      by rewrite decide_False.
  - rewrite keys_complete, <-(writtenIps_read files file log chunks) by done.
    rewrite (buildIncludeIps_read _ _ _ _ Hf). unfold written.
    cbn [handlers settled uncaught].
    split; [done|]. split; [done|]. split; [done|]. split.
    + rewrite feedIps_out, length_fmap, Hcat, <-(keys_count 4).
      apply first_seen_length.
    + unfold fresh. rewrite (feed_remainder _ bodyIps_reads), Hcat.
      by rewrite decide_False.
  - intros n. unfold fresh.
    rewrite (remainder_length_feed _ _ _ body24s_reads),
      (remainder_length_feed _ _ _ bodyIps_reads).
    split; [done|]. split; [done|].
    destruct (div6_spec (length (concat (take n chunks)))). lia.
Qed.

Lemma partial_tail_discarded_witness :
  let log := sample_log ++ [x0a; x09] in
  let chunks := sample_chunks ++ [[x0a]; [x09]] in
  length log `mod` 6 ≠ 0
  ∧ chunking log chunks
  ∧ settled (buildInclude24s {["ips" := log]} "ips"
               (readStream {["ips" := log]} "ips" chunks)) = Resolved
  ∧ length (written (buildInclude24s {["ips" := log]} "ips"
                       (readStream {["ips" := log]} "ips" chunks))) ≤ 4.
Proof.
  cbn zeta.
  assert (length (sample_log ++ [x0a; x09]) `mod` 6 ≠ 0) as Hmod
    by (vm_compute; discriminate).
  assert (chunking (sample_log ++ [x0a; x09]) (sample_chunks ++ [[x0a]; [x09]]))
    as Hcut by (apply (bool_decide_unpack _); vm_compute; reflexivity).
  assert (({["ips" := sample_log ++ [x0a; x09]]} : gmap string (list byte))
            !! "ips" = Some (sample_log ++ [x0a; x09])) as Hf
    by (vm_compute; reflexivity).
  split; [exact Hmod|]. split; [exact Hcut|].
  pose proof (partial_tail_discarded _ "ips" _ _ Hf Hmod Hcut)
    as [(Hs & _ & _ & Hlen & _) _].
  split; [exact Hs|exact Hlen].
Defined.

(** C10. No result log: the build fails instead of resolving with an empty
    list. In [buildInclude24s] the promise is already rejected when the
    executor returns ([statSync] threw; there is no read stream), and no
    event changes that. In [buildIncludeIps] the executor leaves the promise
    pending with a read stream; the stream emits ['error'], and that
    rejects. Neither writes a line. *)
Theorem missing_log_rejects (files : gmap string (list byte)) (file : string) :
  files !! file = None →
  (settled (executor24s files file) = Rejected ENOENT
   ∧ reading (executor24s files file) = false
   ∧ ∀ events,
       settled (buildInclude24s files file events) = Rejected ENOENT
       ∧ written (buildInclude24s files file events) = [])
  ∧ (settled (executorIps files file) = Pending
     ∧ reading (executorIps files file) = true
     ∧ ∀ chunks,
         readStream files file chunks = [StreamError ENOENT]
         ∧ settled (buildIncludeIps files file (readStream files file chunks))
           = Rejected ENOENT
         ∧ written (buildIncludeIps files file (readStream files file chunks))
           = []).
Proof.
  intros Hf. split.
  - unfold buildInclude24s, executor24s. rewrite Hf.
    split; [done|]. split; [done|]. intros events. split.
    + by rewrite deliver_settled.
    + unfold written. by rewrite deliver_not_reading.
  - split; [done|]. split; [done|]. intros chunks.
    unfold readStream. rewrite Hf. done.
Qed.

Lemma missing_log_rejects_witness :
  (∅ : gmap string (list byte)) !! "ips" = None
  ∧ settled (buildInclude24s ∅ "ips" [OutError (Error "EACCES")])
    = Rejected ENOENT
  ∧ settled (buildIncludeIps ∅ "ips" (readStream ∅ "ips" []))
    = Rejected ENOENT.
Proof.
  assert ((∅ : gmap string (list byte)) !! "ips" = None) as Hf by reflexivity.
  pose proof (missing_log_rejects ∅ "ips" Hf) as [(_ & _ & H24) (_ & _ & HIp)].
  split; [exact Hf|].
  split; [exact (proj1 (H24 _))|exact (proj1 (proj2 (HIp [])))].
Defined.

(** C7, where the code falls short of it. An error of the read stream
    rejects the promise. An error of [out] does not: [out] has no ['error']
    listener, so the error is thrown past the promise. Coming before
    ['end'], it leaves the promise pending and ends the process; coming
    after ['end'], it finds the promise resolved, and [await] has let the
    caller go on. *)
Theorem out_error_escapes_promise :
  let e := Error "ENOSPC" in
  let early := [OutError e] in
  let late := [StreamData sample_log; StreamEnd; OutError e] in
  (settled (buildInclude24s sample_files "ips" early) = Pending
   ∧ uncaught (buildInclude24s sample_files "ips" early) = Some e
   ∧ settled (buildInclude24s sample_files "ips" late) = Resolved
   ∧ uncaught (buildInclude24s sample_files "ips" late) = Some e
   ∧ await_build (buildInclude24s sample_files "ips" late) = Ret ())
  ∧ (settled (buildIncludeIps sample_files "ips" early) = Pending
     ∧ uncaught (buildIncludeIps sample_files "ips" early) = Some e
     ∧ settled (buildIncludeIps sample_files "ips" late) = Resolved
     ∧ uncaught (buildIncludeIps sample_files "ips" late) = Some e
     ∧ await_build (buildIncludeIps sample_files "ips" late) = Ret ())
  ∧ (∀ body b e', settled (deliver body b (OutError e')) = settled b)
  ∧ (∀ chunks e',
       settled (buildInclude24s sample_files "ips"
                  ((StreamData <$> chunks) ++ [StreamError e'])) = Rejected e'
       ∧ settled (buildIncludeIps sample_files "ips"
                    ((StreamData <$> chunks) ++ [StreamError e'])) = Rejected e').
Proof.
  cbn zeta. split; [|split; [|split]].
  - repeat split; vm_compute; reflexivity.
  - repeat split; vm_compute; reflexivity.
  - intros. apply deliver_OutError_settled.
  - intros chunks e'. unfold buildInclude24s, buildIncludeIps.
    replace (executor24s sample_files "ips")
      with (Build fresh Pending true false None) by (vm_compute; reflexivity).
    unfold executorIps. by rewrite !deliver_read_error.
Qed.

(** * The pipeline *)

(** ** Runs *)

Section Run.
Context (w : world).



(** What a program never calls, no run of it calls. *)
Lemma avoids_run {A} (P : call → Prop) (p : prog A) : ∀ h,
  avoids P p → Forall (λ s, ¬ P (called s)) (run w p h).1.
Proof.
  induction p as [a|hl|c k IH]; intros h Hp; cbn [run fst]; [done..|].
  destruct Hp as [Hc Hk]. constructor; [done|]. by apply IH.
Qed.

(** Where an answer in [bad] always ends the program, a step with such
    an answer is the last of the run, and the run halts as [stop] says. *)
Lemma stops_on_run {A} bad stop (p : prog A) : ∀ h t1 s t2,
  stops_on bad stop p →
  (run w p h).1 = t1 ++ s :: t2 → bad (called s) (got s) →
  t2 = [] ∧ ∃ hl, stop hl ∧ (run w p h).2 = Halted hl.
Proof.
  induction p as [a|hl|c k IH]; intros h t1 s t2 Hp; cbn [run fst snd].
  - by destruct t1.
  - by destruct t1.
  - cbn [stops_on] in Hp. destruct (Hp (w h c)) as [Hbad Hk].
    destruct t1 as [|s0 t1]; cbn [app]; intros [= <- Ht] Hs.
    + destruct (Hbad Hs) as (hl & Hhl & Hkr).
      rewrite Hkr in Ht |- *. cbn [run fst snd] in *.
      split; [done|]. by exists hl.
    + by eapply IH.
Qed.
End Run.

Lemma avoids_bind {A B} P (p : prog A) (f : A → prog B) :
  avoids P p → (∀ a, avoids P (f a)) → avoids P (p ≫= f).
Proof.
  change (p ≫= f) with (bind p f). intros Hp Hf.
  induction p as [a|hl|c k IH]; cbn [bind avoids] in *; [done..|].
  destruct Hp as [Hc Hk]. split; [done|]. intros r. by apply IH.
Qed.

Lemma avoids_try_catch {A} P (p : prog A) handler :
  avoids P p → (∀ e, avoids P (handler e)) → avoids P (try_catch p handler).
Proof.
  intros Hp Hh.
  induction p as [a|hl|c k IH]; cbn [try_catch avoids] in *; [done| |].
  - by destruct hl.
  - destruct Hp as [Hc Hk]. split; [done|]. intros r. by apply IH.
Qed.

Lemma avoids_await {A} P (s : settlement A) : avoids P (await s).
Proof. by destruct s. Qed.

Lemma avoids_await_build P b : avoids P (await_build b).
Proof. unfold await_build. by destruct (settled b), (uncaught b). Qed.

Lemma stops_on_bind {A B} bad stop (p : prog A) (f : A → prog B) :
  stops_on bad stop p → (∀ a, stops_on bad stop (f a)) →
  stops_on bad stop (p ≫= f).
Proof.
  change (p ≫= f) with (bind p f). intros Hp Hf.
  induction p as [a|hl|c k IH]; cbn [bind stops_on] in *; [done..|].
  intros r. destruct (Hp r) as [Hbad Hk]. split; [|by apply IH].
  intros (hl & Hhl & Hkr)%Hbad. exists hl. by rewrite Hkr.
Qed.

Lemma stops_on_avoids {A} (bad : ∀ c, reply c → Prop) stop (p : prog A) :
  avoids (λ c, ∃ r, bad c r) p → stops_on bad stop p.
Proof.
  induction p as [a|hl|c k IH]; cbn [avoids stops_on]; [done..|].
  intros [Hc Hk] r. split; [|by apply IH].
  intros Hr. destruct Hc. by exists r.
Qed.

(** ** The stages, call by call *)

Ltac avoids_step :=
  first
    [ apply avoids_await
    | apply avoids_await_build
    | apply avoids_bind
    | apply avoids_try_catch
    | progress cbn [avoids]
    | split
    | progress intros
    | case_decide
    | done
    | discriminate
    | by intros [] ].

Ltac solve_avoids :=
  unfold scanDefaultPort, scanNearPorts, scanAllPorts, pushToGit,
    pushToGit_try, masscan, minecraftCheck, git, git_getRemotes,
    await_buildInclude24s, await_buildIncludeIps;
  repeat avoids_step.

Section Stages.
Context (config : Config.t).

Lemma scanDefaultPort_avoids_stage2 : avoids stage2 (scanDefaultPort config).
Proof. solve_avoids. Qed.

Lemma scanDefaultPort_avoids_stage3 : avoids stage3 (scanDefaultPort config).
Proof. solve_avoids. Qed.

Lemma scanNearPorts_avoids_stage3 : avoids stage3 (scanNearPorts config).
Proof. solve_avoids. Qed.

Lemma scanAllPorts_avoids_stage2 : avoids stage2 (scanAllPorts config).
Proof. solve_avoids. Qed.

Lemma pushToGit_avoids_stage2 : avoids stage2 (pushToGit config).
Proof. solve_avoids. Qed.

Lemma pushToGit_avoids_stage3 : avoids stage3 (pushToGit config).
Proof. solve_avoids. Qed.




End Stages.









Lemma stage2_stable c : ¬ ¬ stage2 c → stage2 c.
Proof.
  destruct c as [? file ?|[|file ?]| | | | | | | |]; cbn [stage2];
    try tauto; apply dec_stable.
Qed.

Lemma stage3_stable c : ¬ ¬ stage3 c → stage3 c.
Proof.
  destruct c as [? file ?|[|file ?]| | | | | | | |]; cbn [stage3];
    try tauto; apply dec_stable.
Qed.

Lemma scanNearPorts_only_stage2 config :
  avoids (λ c, ¬ stage2 c) (scanNearPorts config).
Proof. solve_avoids; by intros H; apply H. Qed.

Lemma scanAllPorts_only_stage3 config :
  avoids (λ c, ¬ stage3 c) (scanAllPorts config).
Proof. solve_avoids; by intros H; apply H. Qed.

Lemma main_avoids_stage2 config :
  Config.scan24s config = false → avoids stage2 (main config).
Proof.
  intros H. unfold main. rewrite H.
  repeat first
    [ apply scanDefaultPort_avoids_stage2
    | apply scanAllPorts_avoids_stage2
    | apply pushToGit_avoids_stage2
    | apply avoids_bind
    | progress intros
    | match goal with |- context [if ?b then _ else _] => destruct b end
    | done ].
  all: split; [by intros []|done].
Qed.

Lemma main_avoids_stage3 config :
  Config.scanAllPorts config = false → avoids stage3 (main config).
Proof.
  intros H. unfold main. rewrite H.
  repeat first
    [ apply scanDefaultPort_avoids_stage3
    | apply scanNearPorts_avoids_stage3
    | apply pushToGit_avoids_stage3
    | apply avoids_bind
    | progress intros
    | match goal with |- context [if ?b then _ else _] => destruct b end
    | done ].
  all: split; [by intros []|done].
Qed.

(** C8. With [scan24s] false, no run of [main] calls [buildInclude24s] or
    the scan or validator of Stage 2, whatever the world does; with
    [scanAllPorts] false, none calls [buildIncludeIps] or the scan or
    validator of Stage 3. (And the calls of [scanNearPorts] are calls of
    Stage 2, the first of them the subnet build; likewise for
    [scanAllPorts] and Stage 3.) *)
Theorem disabled_stage_skipped (config : Config.t) (w : world) :
  (Config.scan24s config = false →
   Forall (λ s, ¬ stage2 (called s)) (run w (main config) []).1)
  ∧ (Config.scanAllPorts config = false →
     Forall (λ s, ¬ stage3 (called s)) (run w (main config) []).1)
  ∧ (∀ h, Forall (λ s, stage2 (called s)) (run w (scanNearPorts config) h).1
          ∧ ∃ r t, (run w (scanNearPorts config) h).1
                   = Step (Include24s "ips") r :: t)
  ∧ (∀ h, Forall (λ s, stage3 (called s)) (run w (scanAllPorts config) h).1
          ∧ ∃ r t, (run w (scanAllPorts config) h).1
                   = Step (IncludeIps "ips") r :: t).
Proof.
  split; [|split; [|split]].
  - intros H. by apply avoids_run, main_avoids_stage2.
  - intros H. by apply avoids_run, main_avoids_stage3.
  - intros h. split; [|by eexists _, _].
    eapply Forall_impl; [apply avoids_run, scanNearPorts_only_stage2|].
    intros s. apply stage2_stable.
  - intros h. split; [|by eexists _, _].
    eapply Forall_impl; [apply avoids_run, scanAllPorts_only_stage3|].
    intros s. apply stage3_stable.
Qed.

Lemma disabled_stage_skipped_witness :
  Config.scan24s sample_config = false
  ∧ Forall (λ s, ¬ stage2 (called s)) (run calm (main sample_config) []).1.
Proof.
  assert (Config.scan24s sample_config = false) as H by reflexivity.
  split; [exact H|].
  exact (proj1 (disabled_stage_skipped sample_config calm) H).
Defined.

(** ** Publishing *)

Section Publish.
Context (w : world) (config : Config.t).




End Publish.

(** ** A build that lost its destination *)






Section Lost.
Context (config : Config.t).






End Lost.



(** The calls of three runs, in full. *)
Example run_calm :
  called <$> (run calm (main sample_config) []).1
  = [Masscan "masscan -p 25565 0.0.0.0/0 --rate=1000 --excludefile exclude.conf -oJ -"
       "ipsUnfiltered_pass1" "[1] [Java]";
     MinecraftCheck ["ipsUnfiltered_pass1"; "ips"; "[1] [Java]"];
     IncludeIps "ips";
     Masscan "masscan -p 1024-25499,25701-65535 --include-file includeFile.txt --rate=1000 --excludefile exclude.conf -oJ -"
       "ipsUnfiltered_pass3" "[3] [Java]";
     MinecraftCheck ["ipsUnfiltered_pass3"; "ips"; "[3] [Java]"; "java"; "a"];
     Git simpleGit;
     Git (addConfig "user.name" "bot");
     Git (addConfig "user.email" "bot@example.org");
     GitGetRemotes;
     Git (removeRemote "origin");
     Git (addRemote "origin" "https://example.org/r.git");
     Git (add "ips");
     DateNow;
     Git (commit "1700000000");
     Git (git_push "origin" "main");
     ConsoleLog "Pushed to repo.";
     ProcessExit]
  ∧ (run calm (main sample_config) []).2 = Halted Exits.
Proof. split; vm_compute; reflexivity. Qed.

Example run_push_refused :
  drop 14 (called <$> (run push_refused (main sample_config) []).1)
  = [Git (git_push "origin" "main");
     ConsoleError "Error pushing to repo:" (Error "auth");
     ProcessExit]
  ∧ (run push_refused (main sample_config) []).2 = Halted Exits.
Proof. split; vm_compute; reflexivity. Qed.

Example run_scan_dies :
  called <$> (run scan_dies (main sample_config) []).1
  = [Masscan "masscan -p 25565 0.0.0.0/0 --rate=1000 --excludefile exclude.conf -oJ -"
       "ipsUnfiltered_pass1" "[1] [Java]"]
  ∧ (run scan_dies (main sample_config) []).2
    = Halted (Rejects (Error "masscan exited")).
Proof. split; vm_compute; reflexivity. Qed.

(** The end-to-end scenario of the log with 10.0.0.1, 10.0.0.2, 10.1.0.1
    (and 10.0.0.1 again), delivered in chunks that split records. *)
Example sample_lists :
  written (buildInclude24s sample_files "ips"
             (readStream sample_files "ips" sample_chunks))
  = ["10.0.0.0/24" +:+ LF; "10.1.0.0/24" +:+ LF]
  ∧ written (buildIncludeIps sample_files "ips"
               (readStream sample_files "ips" sample_chunks))
    = ["10.0.0.1" +:+ LF; "10.0.0.2" +:+ LF;
       "10.1.0.1" +:+ LF].
Proof. split; vm_compute; reflexivity. Qed.

(** * Further properties of the builders *)

Lemma closure_eq {A} (s1 s2 : closure A) :
  captured s1 = captured s2 → remainder s1 = remainder s2 → s1 = s2.
Proof. destruct s1, s2; simpl; by intros -> ->. Qed.

Lemma feed_bytes {A} (body : Buffer.t → nat → A → A) a0 chunks1 chunks2 :
  reads_record body → concat chunks1 = concat chunks2 →
  feed body (Closure a0 None) chunks1 = feed body (Closure a0 None) chunks2.
Proof.
  intros Hb Hcat. apply closure_eq.
  - by rewrite !(feed_captured _ Hb), Hcat.
  - by rewrite !(feed_remainder _ Hb), Hcat.
Qed.

(** X1. What a builder holds after a read, the [seen] set, the writes and
    the carried remainder, and so the whole state of the call, depends on
    the bytes delivered alone: two reads that deliver the same bytes, cut
    in any two ways (logs of any length, empty chunks allowed), leave the
    same state. *)
Theorem state_depends_on_bytes (chunks1 chunks2 : list Buffer.t) :
  concat chunks1 = concat chunks2 →
  feed body24s fresh chunks1 = feed body24s fresh chunks2
  ∧ feed bodyIps fresh chunks1 = feed bodyIps fresh chunks2
  ∧ (∀ files file,
       buildInclude24s files file (readStream files file chunks1)
       = buildInclude24s files file (readStream files file chunks2)
       ∧ buildIncludeIps files file (readStream files file chunks1)
         = buildIncludeIps files file (readStream files file chunks2)).
Proof.
  intros Hcat.
  assert (feed body24s fresh chunks1 = feed body24s fresh chunks2) as H24
    by (apply feed_bytes; [apply body24s_reads|done]).
  assert (feed bodyIps fresh chunks1 = feed bodyIps fresh chunks2) as HIp
    by (apply feed_bytes; [apply bodyIps_reads|done]).
  split; [done|]. split; [done|]. intros files file.
  unfold buildInclude24s, buildIncludeIps, readStream, executor24s, executorIps.
  destruct (files !! file) as [log|]; [|done].
  rewrite !deliver_read. by rewrite H24, HIp.
Qed.

Lemma state_depends_on_bytes_witness :
  concat sample_chunks = concat [sample_log; []]
  ∧ feed body24s fresh sample_chunks = feed body24s fresh [sample_log; []].
Proof.
  assert (concat sample_chunks = concat [sample_log; []]) as H by reflexivity.
  split; [exact H|].
  exact (proj1 (state_depends_on_bytes sample_chunks [sample_log; []] H)).
Defined.

Section Seen.
Context (line : Buffer.t → string).

Lemma foldl_emit_seen ks : ∀ v,
  seen (foldl (λ s k, emit_key line k s) v ks)
  = seen v ∪ list_to_set (Buffer.toString_hex <$> ks).
Proof.
  induction ks as [|k ks IH]; intros v; cbn [foldl].
  - set_solver.
  - rewrite IH. unfold emit_key. case_decide; cbn [seen]; set_solver.
Qed.

Lemma foldl_emit_size ks : ∀ v,
  size (seen v) = length (out v) →
  size (seen (foldl (λ s k, emit_key line k s) v ks))
  = length (out (foldl (λ s k, emit_key line k s) v ks)).
Proof.
  induction ks as [|k ks IH]; intros v Hv; cbn [foldl]; [done|].
  apply IH. unfold emit_key. case_decide; cbn [seen out]; [done|].
  rewrite size_union, size_singleton, length_app by set_solver.
  simpl. lia.
Qed.
End Seen.

Lemma feed24s_vars chunks :
  captured (feed body24s fresh chunks)
  = foldl (λ s k, emit_key line24 k s) (Vars ∅ []) (keys 3 (concat chunks)).
Proof.
  unfold fresh. rewrite (feed_captured _ body24s_reads).
  rewrite (foldl_pointwise _ (λ s r, emit_key line24 (project 3 r) s))
    by (intros; apply body24s_emit).
  unfold keys. by rewrite foldl_fmap.
Qed.

Lemma feedIps_vars chunks :
  captured (feed bodyIps fresh chunks)
  = foldl (λ s k, emit_key lineIp k s) (Vars ∅ []) (keys 4 (concat chunks)).
Proof.
  unfold fresh. rewrite (feed_captured _ bodyIps_reads).
  rewrite (foldl_pointwise _ (λ s r, emit_key lineIp (project 4 r) s))
    by (intros; apply bodyIps_emit).
  unfold keys. by rewrite foldl_fmap.
Qed.

(** X2. After a read of the whole log the [seen] set holds the hexadecimal
    keys of the complete records and nothing else, a key is in it exactly
    when some record has these leading bytes, and it has as many members
    as lines were written: one write per member. *)
Theorem seen_matches_written (files : gmap string (list byte)) (file : string)
    (log : Buffer.t) (chunks : list Buffer.t) :
  files !! file = Some log → concat chunks = log →
  (let b := buildInclude24s files file (readStream files file chunks) in
   seen (captured (handlers b))
   = list_to_set (Buffer.toString_hex <$> keys 3 log)
   ∧ (∀ k, Buffer.toString_hex k ∈ seen (captured (handlers b))
           ↔ k ∈ keys 3 log)
   ∧ size (seen (captured (handlers b))) = length (written b))
  ∧ (let b := buildIncludeIps files file (readStream files file chunks) in
     seen (captured (handlers b))
     = list_to_set (Buffer.toString_hex <$> keys 4 log)
     ∧ (∀ k, Buffer.toString_hex k ∈ seen (captured (handlers b))
             ↔ k ∈ keys 4 log)
     ∧ size (seen (captured (handlers b))) = length (written b)).
Proof.
  intros Hf <-. cbn zeta.
  rewrite (buildInclude24s_read _ _ _ _ Hf), (buildIncludeIps_read _ _ _ _ Hf).
  unfold written. cbn [handlers].
  rewrite feed24s_vars, feedIps_vars. split.
  - split; [|split].
    + rewrite foldl_emit_seen. cbn [seen]. set_solver.
    + intros k. rewrite foldl_emit_seen. cbn [seen].
      rewrite elem_of_union, elem_of_list_to_set, list_elem_of_fmap.
      split.
      * intros [?|(k' & ->%toString_hex_inj & ?)]; [set_solver|done].
      * intros Hk. right. by exists k.
    + by apply foldl_emit_size.
  - split; [|split].
    + rewrite foldl_emit_seen. cbn [seen]. set_solver.
    + intros k. rewrite foldl_emit_seen. cbn [seen].
      rewrite elem_of_union, elem_of_list_to_set, list_elem_of_fmap.
      split.
      * intros [?|(k' & ->%toString_hex_inj & ?)]; [set_solver|done].
      * intros Hk. right. by exists k.
    + by apply foldl_emit_size.
Qed.

Lemma seen_matches_written_witness :
  sample_files !! "ips" = Some sample_log
  ∧ concat sample_chunks = sample_log
  ∧ size (seen (captured (handlers
            (buildInclude24s sample_files "ips"
               (readStream sample_files "ips" sample_chunks)))))
    = length (written (buildInclude24s sample_files "ips"
                         (readStream sample_files "ips" sample_chunks))).
Proof.
  assert (concat sample_chunks = sample_log) as H by reflexivity.
  split; [exact sample_files_ips|]. split; [exact H|].
  exact (proj2 (proj2 (proj1 (seen_matches_written sample_files "ips"
                                sample_log sample_chunks sample_files_ips H)))).
Defined.

Lemma keys_ext K log1 log2 :
  K ≤ 6 → length log1 = length log2 →
  (∀ i, i `mod` 6 < K → log1 !! i = log2 !! i) →
  keys K log1 = keys K log2.
Proof.
  intros HK Hlen Hsame. unfold keys, records. rewrite <-Hlen.
  apply list_eq. intros j. rewrite !list_lookup_fmap.
  destruct (decide (j < length log1 `div` 6)) as [Hj|Hj].
  - rewrite !records_n_lookup by done. cbn [fmap option_fmap option_map].
    f_equal. unfold project. apply list_eq. intros i.
    destruct (decide (i < K)) as [Hi|Hi].
    + rewrite !lookup_take_lt, !lookup_drop by lia.
      apply Hsame. destruct (div6_unique j i) as [_ ->]; lia.
    + by rewrite !lookup_take_ge by lia.
  - by rewrite !lookup_ge_None_2 by (rewrite records_n_length; lia).
Qed.

(** X3. The port of a record never reaches a target list, nor does the last
    address byte reach the subnet list: two logs of the same length that
    agree on the first 4 bytes of every 6 give the same host list, and two
    that agree on the first 3 bytes of every 6 give the same subnet list. *)
Theorem ports_ignored (files1 files2 : gmap string (list byte)) (file : string)
    (log1 log2 : Buffer.t) (chunks1 chunks2 : list Buffer.t) :
  files1 !! file = Some log1 → files2 !! file = Some log2 →
  concat chunks1 = log1 → concat chunks2 = log2 →
  length log1 = length log2 →
  ((∀ i, i `mod` 6 < 4 → log1 !! i = log2 !! i) →
   written (buildIncludeIps files1 file (readStream files1 file chunks1))
   = written (buildIncludeIps files2 file (readStream files2 file chunks2)))
  ∧ ((∀ i, i `mod` 6 < 3 → log1 !! i = log2 !! i) →
     written (buildInclude24s files1 file (readStream files1 file chunks1))
     = written (buildInclude24s files2 file (readStream files2 file chunks2))).
Proof.
  intros Hf1 Hf2 Hc1 Hc2 Hlen. split; intros Hsame.
  - rewrite (writtenIps_read files1 file log1), (writtenIps_read files2 file log2)
      by done.
    by rewrite (keys_ext 4 log1 log2) by (lia || done).
  - rewrite (written24s_read files1 file log1), (written24s_read files2 file log2)
      by done.
    by rewrite (keys_ext 3 log1 log2) by (lia || done).
Qed.

Lemma ports_ignored_witness :
  let log2 := [x0a; x00; x00; x01; x00; x50; x0a; x00; x00; x02; x1f; x90] in
  let log1 := take 12 sample_log in
  written (buildIncludeIps {["ips" := log1]} "ips"
             (readStream {["ips" := log1]} "ips" [log1]))
  = written (buildIncludeIps {["ips" := log2]} "ips"
               (readStream {["ips" := log2]} "ips" [log2])).
Proof.
  cbn zeta.
  refine (proj1 (ports_ignored {["ips" := take 12 sample_log]}
                   {["ips" := [x0a; x00; x00; x01; x00; x50;
                               x0a; x00; x00; x02; x1f; x90]]}
                   "ips" _ _ [take 12 sample_log]
                   [[x0a; x00; x00; x01; x00; x50;
                     x0a; x00; x00; x02; x1f; x90]] _ _ _ _ _) _).
  - vm_compute. reflexivity.
  - vm_compute. reflexivity.
  - reflexivity.
  - reflexivity.
  - reflexivity.
  - intros i Hi.
    do 12 (destruct i as [|i]; [first [reflexivity | vm_compute in Hi; lia]|]).
    reflexivity.
Defined.

Lemma first_seen_app {A} `{EqDecision A} (l1 l2 : list A) :
  first_seen l1 `prefix_of` first_seen (l1 ++ l2).
Proof.
  induction l1 as [|x l1 IH]; cbn [app first_seen]; [apply prefix_nil|].
  destruct IH as [k ->]. rewrite filter_app. apply prefix_cons.
  by apply prefix_app_r.
Qed.

Lemma keys_app K log more :
  keys K log `prefix_of` keys K (log ++ more).
Proof.
  unfold keys. rewrite records_app, fmap_app. by apply prefix_app_r.
Qed.

Lemma first_seen_prefix {A} `{EqDecision A} (l1 l2 : list A) :
  l1 `prefix_of` l2 → first_seen l1 `prefix_of` first_seen l2.
Proof. intros [k ->]. apply first_seen_app. Qed.

(** X4. The log only grows, and so does a target list: after bytes are
    appended to the log (completing a partial last record or not), the list
    built from the longer log begins with the list built from the shorter
    one, line for line. *)
Theorem list_grows_with_log (files1 files2 : gmap string (list byte))
    (file : string) (log more : Buffer.t) (chunks1 chunks2 : list Buffer.t) :
  files1 !! file = Some log → files2 !! file = Some (log ++ more) →
  concat chunks1 = log → concat chunks2 = log ++ more →
  written (buildInclude24s files1 file (readStream files1 file chunks1))
  `prefix_of`
  written (buildInclude24s files2 file (readStream files2 file chunks2))
  ∧ written (buildIncludeIps files1 file (readStream files1 file chunks1))
    `prefix_of`
    written (buildIncludeIps files2 file (readStream files2 file chunks2)).
Proof.
  intros Hf1 Hf2 Hc1 Hc2.
  rewrite (written24s_read files1 file log),
    (written24s_read files2 file (log ++ more)),
    (writtenIps_read files1 file log),
    (writtenIps_read files2 file (log ++ more)) by done.
  split.
  - destruct (first_seen_prefix _ _ (keys_app 3 log more)) as [k ->].
    rewrite fmap_app. by apply prefix_app_r.
  - destruct (first_seen_prefix _ _ (keys_app 4 log more)) as [k ->].
    rewrite fmap_app. by apply prefix_app_r.
Qed.

Lemma list_grows_with_log_witness :
  written (buildInclude24s {["ips" := take 8 sample_log]} "ips"
             (readStream {["ips" := take 8 sample_log]} "ips"
                [take 8 sample_log]))
  `prefix_of`
  written (buildInclude24s sample_files "ips"
             (readStream sample_files "ips" sample_chunks)).
Proof.
  refine (proj1 (list_grows_with_log {["ips" := take 8 sample_log]}
                   sample_files "ips" (take 8 sample_log) (drop 8 sample_log)
                   [take 8 sample_log] sample_chunks _ _ _ _)).
  - vm_compute. reflexivity.
  - vm_compute. reflexivity.
  - reflexivity.
  - reflexivity.
Defined.

Lemma first_seen_fmap_length {A B} `{EqDecision A, EqDecision B}
    (f : A → B) (l : list A) :
  length (first_seen (f <$> l)) ≤ length (first_seen l).
Proof.
  rewrite <-(length_fmap f (first_seen l)).
  apply submseteq_length, NoDup_submseteq; [apply NoDup_first_seen|].
  intros y. rewrite elem_of_first_seen, !list_elem_of_fmap.
  intros (x & -> & Hx). exists x. by rewrite elem_of_first_seen.
Qed.

Lemma keys_3_of_4 log : keys 3 log = take 3 <$> keys 4 log.
Proof.
  unfold keys, project. rewrite <-list_fmap_compose.
  apply list_fmap_ext. intros _ r _. simpl. by rewrite take_take.
Qed.

(** X5. The subnet list is the coarser one: built from the same log it
    never has more lines than the host list, and every address of the log
    has its line in the host list and the line of its /24 in the subnet
    list. *)
Theorem subnets_coarser (files : gmap string (list byte)) (file : string)
    (log : Buffer.t) (chunks : list Buffer.t) :
  files !! file = Some log → concat chunks = log →
  let b24 := buildInclude24s files file (readStream files file chunks) in
  let bIp := buildIncludeIps files file (readStream files file chunks) in
  length (written b24) ≤ length (written bIp)
  ∧ (∀ k, k ∈ keys 4 log →
          lineIp k ∈ written bIp ∧ line24 (take 3 k) ∈ written b24).
Proof.
  intros Hf Hcat. cbn zeta.
  rewrite (written24s_read files file log), (writtenIps_read files file log)
    by done.
  split.
  - rewrite !length_fmap, keys_3_of_4. apply first_seen_fmap_length.
  - intros k Hk. split.
    + apply list_elem_of_fmap. exists k. by rewrite elem_of_first_seen.
    + apply list_elem_of_fmap. exists (take 3 k).
      split; [done|]. rewrite elem_of_first_seen, keys_3_of_4.
      apply list_elem_of_fmap. by exists k.
Qed.

Lemma subnets_coarser_witness :
  length (written (buildInclude24s sample_files "ips"
                     (readStream sample_files "ips" sample_chunks)))
  ≤ length (written (buildIncludeIps sample_files "ips"
                       (readStream sample_files "ips" sample_chunks))).
Proof.
  refine (proj1 (subnets_coarser sample_files "ips" sample_log sample_chunks
                   sample_files_ips _)).
  reflexivity.
Defined.

(** X6. A log that exists but holds no complete record (fewer than 6 bytes,
    the empty log among them): either build resolves, writes nothing, and
    leaves [includeFile.txt] empty, whatever it held before. (A log that is
    missing rejects instead: C10.) *)
Theorem short_log_empty_list (files : gmap string (list byte)) (file : string)
    (log : Buffer.t) (chunks : list Buffer.t) :
  files !! file = Some log → concat chunks = log → length log < 6 →
  (let b := buildInclude24s files file (readStream files file chunks) in
   settled b = Resolved ∧ uncaught b = None ∧ written b = []
   ∧ files_after files b !! "includeFile.txt" = Some [])
  ∧ (let b := buildIncludeIps files file (readStream files file chunks) in
     settled b = Resolved ∧ uncaught b = None ∧ written b = []
     ∧ files_after files b !! "includeFile.txt" = Some []).
Proof.
  intros Hf Hcat Hlen. cbn zeta.
  assert (∀ K, keys K log = []) as Hkeys.
  { intros K. unfold keys, records. by rewrite Nat.div_small. }
  unfold files_after, includeFile, includeFile_text.
  rewrite lookup_insert_eq, lookup_insert_eq.
  rewrite (written24s_read files file log), (writtenIps_read files file log)
    by done.
  rewrite !Hkeys.
  rewrite (buildInclude24s_read _ _ _ _ Hf), (buildIncludeIps_read _ _ _ _ Hf).
  done.
Qed.

Lemma short_log_empty_list_witness :
  written (buildInclude24s
             {["ips" := [x0a; x00; x00; x01]; "includeFile.txt" := [x31; x0a]]}
             "ips"
             (readStream
                {["ips" := [x0a; x00; x00; x01]; "includeFile.txt" := [x31; x0a]]}
                "ips" [[x0a; x00]; [x00; x01]]))
  = [].
Proof.
  refine (proj1 (proj2 (proj2 (proj1
    (short_log_empty_list
       {["ips" := [x0a; x00; x00; x01]; "includeFile.txt" := [x31; x0a]]}
       "ips" [x0a; x00; x00; x01] [[x0a; x00]; [x00; x01]] _ _ _))))).
  - vm_compute. reflexivity.
  - reflexivity.
  - vm_compute. lia.
Defined.

(** X7. A read that fails part way: the promise rejects with the error of
    the read stream, [out.end()] is never called, nothing is thrown, and
    the lines of the records completed by the bytes delivered before the
    failure have been written: the builders leave a partial list behind
    and do not clean it up. *)
Theorem read_error_leaves_partial_list (files : gmap string (list byte))
    (file : string) (log : Buffer.t) (chunks : list Buffer.t) (e : error) :
  files !! file = Some log →
  (let b := buildInclude24s files file
              ((StreamData <$> chunks) ++ [StreamError e]) in
   settled b = Rejected e ∧ out_ended b = false ∧ uncaught b = None
   ∧ written b = line24 <$> first_seen (keys 3 (concat chunks)))
  ∧ (let b := buildIncludeIps files file
                ((StreamData <$> chunks) ++ [StreamError e]) in
     settled b = Rejected e ∧ out_ended b = false ∧ uncaught b = None
     ∧ written b = lineIp <$> first_seen (keys 4 (concat chunks))).
Proof.
  intros Hf. cbn zeta.
  unfold buildInclude24s, buildIncludeIps, executor24s, executorIps.
  rewrite Hf, !deliver_read_error. unfold written. cbn [handlers].
  by rewrite feed24s_out, feedIps_out.
Qed.

Lemma read_error_leaves_partial_list_witness :
  written (buildInclude24s sample_files "ips"
             ((StreamData <$> take 3 sample_chunks)
              ++ [StreamError (Error "EIO")]))
  = line24 <$> first_seen (keys 3 (concat (take 3 sample_chunks))).
Proof.
  exact (proj2 (proj2 (proj2 (proj1
    (read_error_leaves_partial_list sample_files "ips" sample_log
       (take 3 sample_chunks) (Error "EIO") sample_files_ips))))).
Defined.

(** * Further properties of the pipeline *)

(** ** Ends, guards and chains *)

Lemma ends_bind_inv {A B} (p : prog A) (f : A → prog B) : ∀ prev e last,
  ends (p ≫= f) prev e last →
  (∃ hl, e = Halted hl ∧ ends p prev (Halted hl) last)
  ∨ (∃ a mid, ends p prev (Returned a) mid ∧ ends (f a) mid e last).
Proof.
  change (p ≫= f) with (bind p f).
  induction p as [a|hl|c k IH]; intros prev e last; cbn [bind ends].
  - intros H. right. by exists a, prev.
  - intros [-> ->]. left. by exists hl.
  - intros [r [(hl & -> & H)|(a & mid & H1 & H2)]%IH].
    + left. exists hl. split; [done|]. by exists r.
    + right. exists a, mid. split; [by exists r|done].
Qed.

Lemma guarded_bind {A B} G (p : prog A) (f : A → prog B) : ∀ prev,
  guarded G prev p →
  (∀ a mid, ends p prev (Returned a) mid → guarded G mid (f a)) →
  guarded G prev (p ≫= f).
Proof.
  change (p ≫= f) with (bind p f).
  induction p as [a|hl|c k IH]; intros prev Hp Hf; cbn [bind guarded] in *.
  - by apply Hf.
  - done.
  - intros r. destruct (Hp r) as [HG Hk]. split; [done|].
    apply IH; [done|]. intros a mid Hmid. apply Hf. by exists r.
Qed.

Lemma guarded_try_catch {A} G (p : prog A) handler : ∀ prev,
  guarded G prev p →
  (∀ e mid, ends p prev (Halted (Rejects e)) mid → guarded G mid (handler e)) →
  guarded G prev (try_catch p handler).
Proof.
  induction p as [a|hl|c k IH]; intros prev Hp Hh;
    cbn [try_catch guarded] in *.
  - done.
  - destruct hl; try done. by apply Hh.
  - intros r. destruct (Hp r) as [HG Hk]. split; [done|].
    apply IH; [done|]. intros e mid Hmid. apply Hh. by exists r.
Qed.

Lemma guarded_avoids {A} (G : option step → step → Prop) (P : call → Prop)
    (p : prog A) : ∀ prev,
  avoids P p → (∀ prev s, ¬ P (called s) → G prev s) → guarded G prev p.
Proof.
  induction p as [a|hl|c k IH]; intros prev Hp HG; cbn [avoids guarded] in *;
    [done..|].
  destruct Hp as [Hc Hk]. intros r. split; [by apply HG|by apply IH].
Qed.

Lemma last_or_cons prev s t : last_or prev (s :: t) = last_or (Some s) t.
Proof.
  unfold last_or. destruct t as [|x t]; [done|].
  rewrite last_cons_cons. destruct (last (x :: t)) eqn:E; [done|].
  by apply last_None in E.
Qed.

Lemma guarded_run {A} G (p : prog A) w : ∀ prev h,
  guarded G prev p → chain G prev (run w p h).1.
Proof.
  induction p as [a|hl|c k IH]; intros prev h Hp; cbn [run fst chain];
    [done..|].
  destruct (Hp (w h c)) as [HG Hk]. split; [done|]. by apply IH.
Qed.

Lemma run_ends {A} (p : prog A) w : ∀ prev h,
  ends p prev (run w p h).2 (last_or prev (run w p h).1).
Proof.
  induction p as [a|hl|c k IH]; intros prev h; cbn [run fst snd ends];
    [done..|].
  exists (w h c). rewrite last_or_cons. apply IH.
Qed.

Lemma chain_split G t1 : ∀ prev s t2,
  chain G prev (t1 ++ s :: t2) → G (last_or prev t1) s.
Proof.
  induction t1 as [|x t1 IH]; intros prev s t2; cbn [app chain].
  - by intros [? _].
  - intros [_ H]. rewrite last_or_cons. by eapply IH.
Qed.

Lemma halts_in_bind {A B} L (p : prog A) (f : A → prog B) :
  halts_in L p → (∀ a, halts_in L (f a)) → halts_in L (p ≫= f).
Proof.
  change (p ≫= f) with (bind p f). intros Hp Hf.
  induction p as [a|hl|c k IH]; cbn [bind halts_in] in *; [done..|].
  intros r. by apply IH.
Qed.

Lemma halts_in_try_catch {A} (L : halt → Prop) (p : prog A) handler :
  halts_in (λ hl, (∀ e, hl ≠ Rejects e) → L hl) p →
  (∀ e, halts_in L (handler e)) → halts_in L (try_catch p handler).
Proof.
  intros Hp Hh.
  induction p as [a|hl|c k IH]; cbn [try_catch halts_in] in *; [done| |].
  - destruct hl; cbn [halts_in]; try (by apply Hp). apply Hh.
  - intros r. by apply IH.
Qed.

Lemma halts_in_ends {A} L (p : prog A) : ∀ prev hl last,
  halts_in L p → ends p prev (Halted hl) last → L hl.
Proof.
  induction p as [a|hl'|c k IH]; intros prev hl last; cbn [halts_in ends].
  - by intros _ [? _].
  - by intros ? [[= ->] _].
  - intros Hk [r Hr]. by eapply IH.
Qed.

Lemma halts_in_await {A} (L : halt → Prop) (s : settlement A) :
  (∀ e, L (Rejects e)) → L Hangs → halts_in L (await s).
Proof. intros. destruct s; cbn; done. Qed.

Lemma halts_in_await_build (L : halt → Prop) b :
  (∀ e, L (Rejects e)) → (∀ e, L (Crashes e)) → L Hangs →
  halts_in L (await_build b).
Proof.
  intros. unfold await_build. destruct (settled b), (uncaught b); cbn; done.
Qed.

Ltac solve_halts :=
  unfold scanDefaultPort, scanNearPorts, scanAllPorts,
    pushToGit_try, masscan, minecraftCheck, git, git_getRemotes,
    await_buildInclude24s, await_buildIncludeIps;
  repeat first
    [ apply halts_in_await
    | apply halts_in_await_build
    | apply halts_in_bind
    | progress cbn [halts_in]
    | progress intros
    | case_decide
    | done ].

Section StageHalts.
Context (config : Config.t).

Lemma scanDefaultPort_halts :
  halts_in (λ hl, hl ≠ Exits) (scanDefaultPort config).
Proof. solve_halts. Qed.

Lemma scanNearPorts_halts :
  halts_in (λ hl, hl ≠ Exits) (scanNearPorts config).
Proof. solve_halts. Qed.

Lemma scanAllPorts_halts :
  halts_in (λ hl, hl ≠ Exits) (scanAllPorts config).
Proof. solve_halts. Qed.

Lemma pushToGit_halts :
  halts_in (λ hl, hl ≠ Exits) (pushToGit config).
Proof.
  unfold pushToGit. apply halts_in_try_catch; [solve_halts|done].
Qed.

Lemma stage_halts (b : bool) (p : prog unit) :
  halts_in (λ hl, hl ≠ Exits) p →
  halts_in (λ hl, hl ≠ Exits) (if b then p else Ret ()).
Proof. by destruct b. Qed.

(** However [main] ends, it has not returned; and if it ended by
    [process.exit()], that call was its last step. *)
Lemma main_ends prev e last :
  ends (main config) prev e last →
  (∃ hl, e = Halted hl ∧ hl ≠ Exits)
  ∨ (e = Halted Exits ∧ ∃ x, last = Some (Step ProcessExit x)).
Proof.
  unfold main. intros H.
  apply ends_bind_inv in H as [(hl & -> & H)|(_ & m1 & _ & H)].
  { left. exists hl. split; [done|].
    apply (halts_in_ends (λ hl, hl ≠ Exits) _ _ _ _
             (stage_halts _ _ scanDefaultPort_halts) H). }
  apply ends_bind_inv in H as [(hl & -> & H)|(_ & m2 & _ & H)].
  { left. exists hl. split; [done|].
    apply (halts_in_ends (λ hl, hl ≠ Exits) _ _ _ _
             (stage_halts _ _ scanNearPorts_halts) H). }
  apply ends_bind_inv in H as [(hl & -> & H)|(_ & m3 & _ & H)].
  { left. exists hl. split; [done|].
    apply (halts_in_ends (λ hl, hl ≠ Exits) _ _ _ _
             (stage_halts _ _ scanAllPorts_halts) H). }
  apply ends_bind_inv in H as [(hl & -> & H)|(_ & m4 & _ & H)].
  { left. exists hl. split; [done|].
    apply (halts_in_ends (λ hl, hl ≠ Exits) _ _ _ _
             (stage_halts _ _ pushToGit_halts) H). }
  destruct H as (x & -> & ->). right. split; [done|]. by exists x.
Qed.

Lemma main_exit_stops :
  stops_on (λ c _, c = ProcessExit) (λ hl, hl = Exits) (main config).
Proof.
  unfold main.
  repeat first
    [ apply stops_on_bind
    | progress intros
    | match goal with |- context [if ?b then _ else _] => destruct b end
    | apply stops_on_avoids; solve_avoids; by intros [? ?]
    | done ].
  split; [|done]. intros _. by exists Exits.
Qed.
End StageHalts.

(** X8. A run of [main] never ends by [main] returning: it ends by
    [process.exit()], by a rejection, by an uncaught exception or by
    hanging. It ends by [process.exit()] exactly when its last step is that
    call, and no step ever follows that call. *)
Theorem exit_is_last (config : Config.t) (w : world) :
  let r := run w (main config) [] in
  (∀ a, r.2 ≠ Returned a)
  ∧ (r.2 = Halted Exits ↔ ∃ t x, r.1 = t ++ [Step ProcessExit x])
  ∧ (∀ t1 s t2, r.1 = t1 ++ s :: t2 → called s = ProcessExit → t2 = []).
Proof.
  cbn zeta.
  pose proof (main_ends config _ _ _ (run_ends (main config) w None [])) as He.
  pose proof (λ t1 s t2, stops_on_run w _ _ (main config) [] t1 s t2
                           (main_exit_stops config)) as Hstop.
  cbn beta in Hstop.
  split; [|split].
  - intros a Ha. rewrite Ha in He. by destruct He as [(hl & ? & _)|[? _]].
  - split.
    + intros Hx. rewrite Hx in He.
      destruct He as [(hl & [= <-] & ?)|[_ [x Hlast]]]; [done|].
      unfold last_or in Hlast.
      destruct (last (run w (main config) []).1) as [s|] eqn:E; [|done].
      injection Hlast as ->. apply last_Some in E as [t ->]. by exists t, x.
    + intros (t & x & Ht).
      destruct (Hstop t (Step ProcessExit x) [] Ht eq_refl)
        as (_ & hl & -> & ->). done.
  - intros t1 s t2 Ht Hs. by destruct (Hstop t1 s t2 Ht Hs).
Qed.

Lemma main_avoids_stage1 config :
  Config.scanPort config = false → avoids stage1 (main config).
Proof.
  intros H. unfold main. rewrite H.
  repeat first
    [ apply avoids_bind
    | progress intros
    | match goal with |- context [if ?b then _ else _] => destruct b end
    | solve [solve_avoids]
    | done ].
Qed.

Lemma main_avoids_stage4 config :
  Config.push (Config.git config) = false → avoids stage4 (main config).
Proof.
  intros H. unfold main. rewrite H.
  repeat first
    [ apply avoids_bind
    | progress intros
    | match goal with |- context [if ?b then _ else _] => destruct b end
    | solve [solve_avoids]
    | done ].
Qed.

(** X9. The other two switches. With [scanPort] false no run of [main]
    calls the scan or the validator of pass 1; with [git.push] false none
    makes a [simple-git] call, reads the clock or writes to the console. *)
Theorem switched_off_steps (config : Config.t) (w : world) :
  (Config.scanPort config = false →
   Forall (λ s, ¬ stage1 (called s)) (run w (main config) []).1)
  ∧ (Config.push (Config.git config) = false →
     Forall (λ s, ¬ stage4 (called s)) (run w (main config) []).1).
Proof.
  split; intros H.
  - by apply avoids_run, main_avoids_stage1.
  - by apply avoids_run, main_avoids_stage4.
Qed.

Lemma switched_off_steps_witness :
  Forall (λ s, ¬ stage4 (called s))
    (run calm (main (Config.Make true true true 1000 true
                       (Config.Git false "bot" "bot@example.org"
                          "https://example.org/r.git" "main"))) []).1.
Proof.
  refine (proj2 (switched_off_steps _ calm) _). reflexivity.
Defined.

(** ** The primitives, as steps *)

Section Primitives.
Context (G : option step → step → Prop) (prev : option step).

Lemma guarded_masscan cmd file label :
  (∀ r, G prev (Step (Masscan cmd file label) r)) →
  guarded G prev (masscan cmd file label).
Proof. intros H r. split; [done|]. by destruct r. Qed.

Lemma guarded_minecraftCheck args :
  (∀ r, G prev (Step (MinecraftCheck args) r)) →
  guarded G prev (minecraftCheck args).
Proof. intros H r. split; [done|]. by destruct r. Qed.

Lemma guarded_git op :
  (∀ r, G prev (Step (Git op) r)) → guarded G prev (git op).
Proof. intros H r. split; [done|]. by destruct r. Qed.

Lemma guarded_getRemotes :
  (∀ r, G prev (Step GitGetRemotes r)) → guarded G prev git_getRemotes.
Proof. intros H r. split; [done|]. by destruct r. Qed.

Lemma guarded_buildInclude24s file :
  (∀ r, G prev (Step (Include24s file) r)) →
  guarded G prev (await_buildInclude24s file).
Proof.
  intros H r. split; [done|]. cbn beta. unfold await_build.
  by repeat case_match.
Qed.

Lemma guarded_buildIncludeIps file :
  (∀ r, G prev (Step (IncludeIps file) r)) →
  guarded G prev (await_buildIncludeIps file).
Proof.
  intros H r. split; [done|]. cbn beta. unfold await_build.
  by repeat case_match.
Qed.

Lemma ends_masscan cmd file label (a : ()) mid :
  ends (masscan cmd file label) prev (Returned a) mid →
  mid = Some (Step (Masscan cmd file label) (Fulfilled ())).
Proof. by intros [[[]|e|] [? ->]]. Qed.

Lemma ends_git op (a : ()) mid :
  ends (git op) prev (Returned a) mid →
  mid = Some (Step (Git op) (Fulfilled ())).
Proof. by intros [[[]|e|] [? ->]]. Qed.

Lemma ends_git_throws op e mid :
  ends (git op) prev (Halted (Rejects e)) mid →
  mid = Some (Step (Git op) (Threw e)).
Proof. intros [[[]|e'|] [[=] ->]]. by subst. Qed.

Lemma ends_getRemotes names mid :
  ends git_getRemotes prev (Returned names) mid →
  mid = Some (Step GitGetRemotes (Fulfilled names)).
Proof. intros [[names'|e|] [[=] ->]]. by subst. Qed.

Lemma ends_getRemotes_throws e mid :
  ends git_getRemotes prev (Halted (Rejects e)) mid →
  mid = Some (Step GitGetRemotes (Threw e)).
Proof. intros [[names'|e'|] [[=] ->]]. by subst. Qed.

Lemma ends_buildInclude24s file (a : ()) mid :
  ends (await_buildInclude24s file) prev (Returned a) mid →
  ∃ world, mid = Some (Step (Include24s file) world)
           ∧ settled (buildInclude24s world.1 file world.2) = Resolved.
Proof.
  intros [world H]. exists world. unfold await_build in H.
  repeat case_match; by destruct H as [? ->].
Qed.

Lemma ends_buildIncludeIps file (a : ()) mid :
  ends (await_buildIncludeIps file) prev (Returned a) mid →
  ∃ world, mid = Some (Step (IncludeIps file) world)
           ∧ settled (buildIncludeIps world.1 file world.2) = Resolved.
Proof.
  intros [world H]. exists world. unfold await_build in H.
  repeat case_match; by destruct H as [? ->].
Qed.
End Primitives.

(** A guard that holds of [process.exit()] and through every stage holds
    through [main]. *)
Lemma main_guarded G config :
  (∀ prev, guarded G prev (scanDefaultPort config)) →
  (∀ prev, guarded G prev (scanNearPorts config)) →
  (∀ prev, guarded G prev (scanAllPorts config)) →
  (∀ prev, guarded G prev (pushToGit config)) →
  (∀ prev r, G prev (Step ProcessExit r)) →
  guarded G None (main config).
Proof.
  intros H1 H2 H3 H4 H5. unfold main.
  repeat (apply guarded_bind; [by case_match|intros _ ? _]).
  intros r. by split.
Qed.

Lemma guarded_to_run G config (w : world) t1 s t2 :
  guarded G None (main config) →
  (run w (main config) []).1 = t1 ++ s :: t2 → G (last_or None t1) s.
Proof.
  intros HG Ht. eapply chain_split. rewrite <-Ht. by apply guarded_run.
Qed.

Lemma last_or_Some t x : last_or None t = Some x → ∃ t0, t = t0 ++ [x].
Proof.
  unfold last_or. destruct (last t) eqn:E; [|done].
  intros [= ->]. by apply last_Some.
Qed.

(** ** Scans and validations in their place *)

Section Gated.
Context (config : Config.t).

Lemma scanDefaultPort_gated prev : guarded gated prev (scanDefaultPort config).
Proof.
  unfold scanDefaultPort. apply guarded_bind.
  - apply guarded_masscan. intros r. by split.
  - intros a mid ->%ends_masscan. apply guarded_minecraftCheck.
    intros r. by eexists _, _.
Qed.

Lemma scanNearPorts_gated prev : guarded gated prev (scanNearPorts config).
Proof.
  unfold scanNearPorts. apply guarded_bind.
  - by apply guarded_buildInclude24s.
  - intros a mid (world & -> & Hw)%ends_buildInclude24s. apply guarded_bind.
    + apply guarded_masscan. intros r. split; [|done]. intros _. by exists world.
    + intros a' mid' ->%ends_masscan. apply guarded_minecraftCheck.
      intros r. by eexists _, _.
Qed.

Lemma scanAllPorts_gated prev : guarded gated prev (scanAllPorts config).
Proof.
  unfold scanAllPorts. apply guarded_bind.
  - by apply guarded_buildIncludeIps.
  - intros a mid (world & -> & Hw)%ends_buildIncludeIps. apply guarded_bind.
    + apply guarded_masscan. intros r. split; [done|]. intros _. by exists world.
    + intros a' mid' ->%ends_masscan. apply guarded_minecraftCheck.
      intros r. by eexists _, _.
Qed.

Lemma pushToGit_gated prev : guarded gated prev (pushToGit config).
Proof.
  apply (guarded_avoids gated
           (λ c, match c with Masscan _ _ _ | MinecraftCheck _ => True
                            | _ => False end)).
  - solve_avoids.
  - intros prev' [[] r]; cbn; tauto.
Qed.

Lemma main_gated : guarded gated None (main config).
Proof.
  apply main_guarded;
    auto using scanDefaultPort_gated, scanNearPorts_gated,
      scanAllPorts_gated, pushToGit_gated.
  done.
Qed.
End Gated.

(** X10. In every run of [main] a validation comes right after the scan
    that wrote the file it reads, and only when that scan fulfilled; a scan
    of pass 2 comes right after the build of the subnet list from [ips],
    a scan of pass 3 right after the build of the host list, and only when
    the promise of the build resolved. *)
Theorem scans_in_their_place (config : Config.t) (w : world) :
  let t := (run w (main config) []).1 in
  (∀ t1 s t2 file rest,
     t = t1 ++ s :: t2 → called s = MinecraftCheck (file :: rest) →
     ∃ t0 cmd label,
       t1 = t0 ++ [Step (Masscan cmd file label) (Fulfilled ())])
  ∧ (∀ t1 s t2 cmd label,
       t = t1 ++ s :: t2 → called s = Masscan cmd "ipsUnfiltered_pass2" label →
       ∃ t0 world,
         t1 = t0 ++ [Step (Include24s "ips") world]
         ∧ settled (buildInclude24s world.1 "ips" world.2) = Resolved)
  ∧ (∀ t1 s t2 cmd label,
       t = t1 ++ s :: t2 → called s = Masscan cmd "ipsUnfiltered_pass3" label →
       ∃ t0 world,
         t1 = t0 ++ [Step (IncludeIps "ips") world]
         ∧ settled (buildIncludeIps world.1 "ips" world.2) = Resolved).
Proof.
  cbn zeta.
  pose proof (λ t1 s t2, guarded_to_run gated config w t1 s t2
                           (main_gated config)) as HG.
  split; [|split].
  - intros t1 s t2 file rest Ht Hs. specialize (HG _ _ _ Ht).
    unfold gated in HG. rewrite Hs in HG.
    destruct HG as (cmd & label & [t0 ->]%last_or_Some). by exists t0, cmd, label.
  - intros t1 s t2 cmd label Ht Hs. specialize (HG _ _ _ Ht).
    unfold gated in HG. rewrite Hs in HG.
    destruct HG as [HG _].
    destruct (HG eq_refl) as (world & [t0 ->]%last_or_Some & Hw).
    by exists t0, world.
  - intros t1 s t2 cmd label Ht Hs. specialize (HG _ _ _ Ht).
    unfold gated in HG. rewrite Hs in HG.
    destruct HG as [_ HG].
    destruct (HG eq_refl) as (world & [t0 ->]%last_or_Some & Hw).
    by exists t0, world.
Qed.

(** ** Publishing, step by step *)

Lemma git_threw prev op e mid :
  ends (git op) prev (Halted (Rejects e)) mid →
  ∃ c r, mid = Some (Step c r) ∧ publish_threw e c r.
Proof. intros ->%ends_git_throws. by exists (Git op), (Threw e). Qed.

Lemma getRemotes_threw prev e mid :
  ends git_getRemotes prev (Halted (Rejects e)) mid →
  ∃ c r, mid = Some (Step c r) ∧ publish_threw e c r.
Proof. intros ->%ends_getRemotes_throws. by exists GitGetRemotes, (Threw e). Qed.

Ltac throw_here H :=
  first
    [ by apply git_threw in H
    | by apply getRemotes_threw in H
    | case_decide; [by apply git_threw in H|by destruct H]
    | by destruct H as [? [? ?]] ].

Section Published.
Context (config : Config.t).

(** When the [try] block throws, its last step is the call that threw. *)
Lemma pushToGit_try_throws prev e mid :
  ends (pushToGit_try config) prev (Halted (Rejects e)) mid →
  ∃ c r, mid = Some (Step c r) ∧ publish_threw e c r.
Proof.
  unfold pushToGit_try. intros H.
  do 10 (apply ends_bind_inv in H as [(? & [= <-] & H)|(? & ? & _ & H)];
         [throw_here H|]).
  by destruct H as [? [? ?]].
Qed.

Lemma stage4_free G :
  (∀ prev s, ¬ stage4 (called s) → G prev s) →
  (∀ prev, guarded G prev (scanDefaultPort config))
  ∧ (∀ prev, guarded G prev (scanNearPorts config))
  ∧ (∀ prev, guarded G prev (scanAllPorts config))
  ∧ (∀ prev r, G prev (Step ProcessExit r)).
Proof.
  intros HG. split; [|split; [|split]].
  - intros prev. apply (guarded_avoids G stage4); [solve_avoids|done].
  - intros prev. apply (guarded_avoids G stage4); [solve_avoids|done].
  - intros prev. apply (guarded_avoids G stage4); [solve_avoids|done].
  - intros prev r. apply HG. by intros [].
Qed.

Lemma pushToGit_reported prev : guarded reported prev (pushToGit config).
Proof.
  unfold pushToGit. apply guarded_try_catch.
  - unfold pushToGit_try.
    repeat (apply guarded_bind;
            [first [ by apply guarded_git
                   | by apply guarded_getRemotes
                   | case_decide; [by apply guarded_git|done]
                   | intros r; by split ]
            |intros ? ? ?]).
    intros r. split; [|done]. split; [done|].
    match goal with
    | H : ends (git (git_push _ _)) _ _ _ |- _ => apply ends_git in H as ->
    end.
    by eexists _, _.
  - intros e mid (c & r' & -> & Hthrew)%pushToGit_try_throws.
    intros r. split; [|done]. split; [done|]. by exists c, r'.
Qed.

Lemma pushToGit_prepared prev : guarded prepared prev (pushToGit config).
Proof.
  unfold pushToGit. apply guarded_try_catch; [|intros e mid _ r; by split].
  unfold pushToGit_try.
  apply guarded_bind; [by apply guarded_git|intros _ ? _].
  apply guarded_bind; [by apply guarded_git|intros _ ? _].
  apply guarded_bind; [by apply guarded_git|intros _ ? _].
  apply guarded_bind;
    [by apply guarded_getRemotes|intros remotes ? ->%ends_getRemotes].
  apply guarded_bind.
  { case_decide; [|done]. apply guarded_git. intros r.
    split; [done|]. by exists remotes. }
  intros a afterIf Hif. apply guarded_bind.
  { apply guarded_git. intros r. split; [done|]. case_decide.
    - right. by apply ends_git in Hif.
    - left. destruct Hif as [_ ->]. by exists remotes. }
  intros _ ? _. apply guarded_bind; [by apply guarded_git|intros _ ? _].
  apply guarded_bind; [intros r; by split|].
  intros now ? (r' & [= <-] & ->). apply guarded_bind.
  { apply guarded_git. intros r. by exists now. }
  intros _ ? _. apply guarded_bind; [by apply guarded_git|intros _ ? _].
  intros r. by split.
Qed.

Lemma main_reported : guarded reported None (main config).
Proof.
  destruct (stage4_free reported) as (H1 & H2 & H3 & H5).
  { intros prev [[] r]; cbn; tauto. }
  apply main_guarded; auto using pushToGit_reported.
Qed.

Lemma main_prepared : guarded prepared None (main config).
Proof.
  destruct (stage4_free prepared) as (H1 & H2 & H3 & H5).
  { intros prev [[] r]; cbn; tauto. }
  apply main_guarded; auto using pushToGit_prepared.
Qed.
End Published.

(** X11. What [pushToGit] writes to the console tells what happened. The
    message "Pushed to repo." comes right after a [git.push] that
    fulfilled; the message "Error pushing to repo:" comes right after the
    [simple-git] call that threw, and carries the error of that call. *)
Theorem publish_reports (config : Config.t) (w : world) :
  let t := (run w (main config) []).1 in
  (∀ t1 s t2 message,
     t = t1 ++ s :: t2 → called s = ConsoleLog message →
     message = "Pushed to repo."
     ∧ ∃ t0 remote branch,
         t1 = t0 ++ [Step (Git (git_push remote branch)) (Fulfilled ())])
  ∧ (∀ t1 s t2 message err,
       t = t1 ++ s :: t2 → called s = ConsoleError message err →
       message = "Error pushing to repo:"
       ∧ ∃ t0 c r, t1 = t0 ++ [Step c r] ∧ publish_threw err c r).
Proof.
  cbn zeta.
  pose proof (λ t1 s t2, guarded_to_run reported config w t1 s t2
                           (main_reported config)) as HG.
  split.
  - intros t1 s t2 message Ht Hs. specialize (HG _ _ _ Ht).
    unfold reported in HG. rewrite Hs in HG.
    destruct HG as (-> & remote & branch & [t0 ->]%last_or_Some).
    split; [done|]. by exists t0, remote, branch.
  - intros t1 s t2 message err Ht Hs. specialize (HG _ _ _ Ht).
    unfold reported in HG. rewrite Hs in HG.
    destruct HG as (-> & c & r & [t0 ->]%last_or_Some & Hthrew).
    split; [done|]. by exists t0, c, r.
Qed.

(** X12. What [pushToGit] does to the repository. It removes a remote only
    right after [getRemotes] listed one named origin, and it is origin it
    removes; it adds origin right after that removal fulfilled, or right
    after [getRemotes] listed no origin; it stages the file [ips] and no
    other; the commit message is the clock reading taken just before, in
    whole seconds; it pushes to origin. *)
Theorem publish_prepared (config : Config.t) (w : world) :
  let t := (run w (main config) []).1 in
  (∀ t1 s t2 name,
     t = t1 ++ s :: t2 → called s = Git (removeRemote name) →
     name = "origin"
     ∧ ∃ t0 names, t1 = t0 ++ [Step GitGetRemotes (Fulfilled names)]
                   ∧ "origin" ∈ names)
  ∧ (∀ t1 s t2 name url,
       t = t1 ++ s :: t2 → called s = Git (addRemote name url) →
       name = "origin"
       ∧ ((∃ t0 names, t1 = t0 ++ [Step GitGetRemotes (Fulfilled names)]
                       ∧ "origin" ∉ names)
          ∨ ∃ t0, t1 = t0 ++ [Step (Git (removeRemote "origin"))
                                 (Fulfilled ())]))
  ∧ (∀ t1 s t2 file,
       t = t1 ++ s :: t2 → called s = Git (add file) → file = "ips")
  ∧ (∀ t1 s t2 message,
       t = t1 ++ s :: t2 → called s = Git (commit message) →
       ∃ t0 (now : N), t1 = t0 ++ [Step DateNow now]
                       ∧ message = pretty (now `div` 1000)%N)
  ∧ (∀ t1 s t2 remote branch,
       t = t1 ++ s :: t2 → called s = Git (git_push remote branch) →
       remote = "origin").
Proof.
  cbn zeta.
  pose proof (λ t1 s t2, guarded_to_run prepared config w t1 s t2
                           (main_prepared config)) as HG.
  split; [|split; [|split; [|split]]].
  - intros t1 s t2 name Ht Hs. specialize (HG _ _ _ Ht).
    unfold prepared in HG. rewrite Hs in HG.
    destruct HG as (-> & names & [t0 ->]%last_or_Some & ?).
    split; [done|]. by exists t0, names.
  - intros t1 s t2 name url Ht Hs. specialize (HG _ _ _ Ht).
    unfold prepared in HG. rewrite Hs in HG.
    destruct HG as (-> & [(names & [t0 ->]%last_or_Some & ?)
                         |[t0 ->]%last_or_Some]); (split; [done|]).
    + left. by exists t0, names.
    + right. by exists t0.
  - intros t1 s t2 file Ht Hs. specialize (HG _ _ _ Ht).
    unfold prepared in HG. by rewrite Hs in HG.
  - intros t1 s t2 message Ht Hs. specialize (HG _ _ _ Ht).
    unfold prepared in HG. rewrite Hs in HG.
    destruct HG as (now & [t0 ->]%last_or_Some & ?). by exists t0, now.
  - intros t1 s t2 remote branch Ht Hs. specialize (HG _ _ _ Ht).
    unfold prepared in HG. by rewrite Hs in HG.
Qed.

(** ** Stages in order *)

Lemma staged {A} n (p : prog A) :
  avoids (λ c, stage_of c ≠ n) p →
  ∀ prev, stage_of_step prev ≤ n →
    guarded in_order prev p
    ∧ ∀ e last, ends p prev e last → stage_of_step last ≤ n.
Proof.
  induction p as [a|hl|c k IH]; intros Hp prev Hprev; cbn [guarded ends].
  - split; [done|]. by intros e last [_ ->].
  - split; [done|]. by intros e last [_ ->].
  - destruct Hp as [Hc Hk].
    assert (stage_of c = n) as Hn by (destruct (decide (stage_of c = n)); done).
    split.
    + intros r. split; [unfold in_order; cbn; lia|].
      destruct (IH r (Hk r) (Some (Step c r))) as [HG _]; [cbn; lia|done].
    + intros e last [r Hr].
      destruct (IH r (Hk r) (Some (Step c r))) as [_ HE]; [cbn; lia|].
      by eapply HE.
Qed.

Ltac solve_stage :=
  solve_avoids;
  try (let Hn := fresh in intros Hn; apply Hn; reflexivity);
  try (let Hn := fresh in intros Hn; vm_compute in Hn; discriminate).

Section InOrder.
Context (config : Config.t).

Lemma scanDefaultPort_stage (b : bool) :
  avoids (λ c, stage_of c ≠ 1) (if b then scanDefaultPort config else Ret ()).
Proof. destruct b; [|done]. solve_stage. Qed.

Lemma scanNearPorts_stage (b : bool) :
  avoids (λ c, stage_of c ≠ 2) (if b then scanNearPorts config else Ret ()).
Proof. destruct b; [|done]. solve_stage. Qed.

Lemma scanAllPorts_stage (b : bool) :
  avoids (λ c, stage_of c ≠ 3) (if b then scanAllPorts config else Ret ()).
Proof. destruct b; [|done]. solve_stage. Qed.

Lemma pushToGit_stage (b : bool) :
  avoids (λ c, stage_of c ≠ 4) (if b then pushToGit config else Ret ()).
Proof. destruct b; [|done]. solve_stage. Qed.

Lemma main_in_order : guarded in_order None (main config).
Proof.
  unfold main.
  destruct (staged 1 _ (scanDefaultPort_stage (Config.scanPort config)) None)
    as [G1 E1]; [cbn; lia|].
  apply guarded_bind; [done|]. intros ? m1 Hm1%E1.
  destruct (staged 2 _ (scanNearPorts_stage (Config.scan24s config)) m1)
    as [G2 E2]; [lia|].
  apply guarded_bind; [done|]. intros ? m2 Hm2%E2.
  destruct (staged 3 _ (scanAllPorts_stage (Config.scanAllPorts config)) m2)
    as [G3 E3]; [lia|].
  apply guarded_bind; [done|]. intros ? m3 Hm3%E3.
  destruct (staged 4 _ (pushToGit_stage (Config.push (Config.git config))) m3)
    as [G4 E4]; [lia|].
  apply guarded_bind; [done|]. intros ? m4 Hm4%E4.
  intros r. split; [|done]. unfold in_order. cbn. lia.
Qed.

Lemma main_avoids_stage0 : avoids (λ c, stage_of c = 0) (main config).
Proof.
  unfold main.
  repeat first
    [ apply avoids_bind
    | progress intros
    | match goal with |- context [if ?b then _ else _] => destruct b end
    | solve [solve_stage]
    | done ].
Qed.
End InOrder.

Lemma chain_app G t1 : ∀ prev t2,
  chain G prev (t1 ++ t2) → chain G (last_or prev t1) t2.
Proof.
  induction t1 as [|x t1 IH]; intros prev t2; cbn [app chain]; [done|].
  intros [_ H]. rewrite last_or_cons. by apply IH.
Qed.

Lemma chain_in_order_all t : ∀ prev,
  chain in_order prev t →
  Forall (λ s, stage_of_step prev ≤ stage_of (called s)) t.
Proof.
  induction t as [|s t IH]; intros prev; cbn [chain]; [done|].
  intros [Hs Ht]. constructor; [done|].
  eapply Forall_impl; [by apply IH|]. unfold in_order in Hs. cbn. lia.
Qed.

(** X13. The stages of a run come in order and never interleave: in every
    run of [main], of two steps the later one belongs to the same stage or
    to a later one (pass 1, pass 2 with its subnet build, pass 3 with its
    host build, publishing, [process.exit()]); and every step belongs to
    one of these. *)
Theorem stages_in_order (config : Config.t) (w : world) :
  let t := (run w (main config) []).1 in
  (∀ t1 s1 t2 s2 t3,
     t = t1 ++ s1 :: t2 ++ s2 :: t3 →
     stage_of (called s1) ≤ stage_of (called s2))
  ∧ Forall (λ s, 1 ≤ stage_of (called s) ≤ 5) t.
Proof.
  cbn zeta. split.
  - intros t1 s1 t2 s2 t3 Ht.
    pose proof (guarded_run in_order (main config) w None []
                  (main_in_order config)) as Hc.
    rewrite Ht in Hc. apply chain_app in Hc as [_ Hc].
    apply chain_in_order_all in Hc. rewrite Forall_forall in Hc.
    apply (Hc s2). set_solver.
  - eapply Forall_impl;
      [apply (avoids_run w _ _ [] (main_avoids_stage0 config))|].
    intros [c r] Hs. cbn in *.
    assert (stage_of c ≤ 5); [|lia].
    destruct c as [? f ?|[|f ?]| | | | | | | |]; cbn; try lia;
      unfold stage_of_file; repeat case_decide; lia.
Qed.

(** ** Why a run stops short of [process.exit()] *)

Lemma ends_try_catch_inv {A} (p : prog A) handler : ∀ prev e last,
  ends (try_catch p handler) prev e last →
  (ends p prev e last ∧ ∀ err, e ≠ Halted (Rejects err))
  ∨ (∃ err mid, ends p prev (Halted (Rejects err)) mid
                ∧ ends (handler err) mid e last).
Proof.
  induction p as [a|hl|c k IH]; intros prev e last; cbn [try_catch ends].
  - intros [-> ->]. by left.
  - destruct hl as [err| | |]; cbn [ends].
    + intros H. right. by exists err, prev.
    + intros [-> ->]. by left.
    + intros [-> ->]. by left.
    + intros [-> ->]. by left.
  - intros [r [[H1 H2]|(err & mid & H1 & H2)]%IH].
    + left. split; [by exists r|done].
    + right. exists err, mid. split; [by exists r|done].
Qed.

Section Stalled.
Context (config : Config.t) (prev : option step).

Lemma masscan_stalled cmd file label hl last :
  ends (masscan cmd file label) prev (Halted hl) last → stalled last.
Proof. intros [[[]|e|] [? ->]]; [done|by left..]. Qed.

Lemma minecraftCheck_stalled args hl last :
  ends (minecraftCheck args) prev (Halted hl) last → stalled last.
Proof. intros [[[]|e|] [? ->]]; [done|by left..]. Qed.

Lemma buildInclude24s_stalled file hl last :
  ends (await_buildInclude24s file) prev (Halted hl) last → stalled last.
Proof.
  intros [world H]. unfold await_build in H.
  destruct (settled (buildInclude24s world.1 file world.2)) eqn:E;
    repeat case_match; destruct H as [? ->]; try done;
    left; cbn; by rewrite E.
Qed.

Lemma buildIncludeIps_stalled file hl last :
  ends (await_buildIncludeIps file) prev (Halted hl) last → stalled last.
Proof.
  intros [world H]. unfold await_build in H.
  destruct (settled (buildIncludeIps world.1 file world.2)) eqn:E;
    repeat case_match; destruct H as [? ->]; try done;
    left; cbn; by rewrite E.
Qed.

Lemma git_stalled op hl last :
  ends (git op) prev (Halted hl) last →
  (∃ e, hl = Rejects e) ∨ stalled last.
Proof.
  intros [[[]|e|] [[=] ->]]; subst; [left; by exists e|right; by right].
Qed.

Lemma getRemotes_stalled hl last :
  ends git_getRemotes prev (Halted hl) last →
  (∃ e, hl = Rejects e) ∨ stalled last.
Proof.
  intros [[?|e|] [[=] ->]]; subst; [left; by exists e|right; by right].
Qed.
End Stalled.

Ltac stall_here H :=
  first
    [ by eapply masscan_stalled
    | by eapply minecraftCheck_stalled
    | by eapply buildInclude24s_stalled
    | by eapply buildIncludeIps_stalled
    | by eapply git_stalled
    | by eapply getRemotes_stalled
    | case_decide; [by eapply git_stalled|by destruct H]
    | by destruct H as [? [? ?]] ].

Section Stuck.
Context (config : Config.t).

Lemma scanDefaultPort_stalled (b : bool) prev hl last :
  ends (if b then scanDefaultPort config else Ret ()) prev (Halted hl) last →
  stalled last.
Proof.
  destruct b; [|by intros [? _]]. unfold scanDefaultPort. intros H.
  apply ends_bind_inv in H as [(? & [= <-] & H)|(? & ? & _ & H)];
    stall_here H.
Qed.

Lemma scanNearPorts_stalled (b : bool) prev hl last :
  ends (if b then scanNearPorts config else Ret ()) prev (Halted hl) last →
  stalled last.
Proof.
  destruct b; [|by intros [? _]]. unfold scanNearPorts. intros H.
  apply ends_bind_inv in H as [(? & [= <-] & H)|(? & ? & _ & H)];
    [stall_here H|].
  apply ends_bind_inv in H as [(? & [= <-] & H)|(? & ? & _ & H)];
    stall_here H.
Qed.

Lemma scanAllPorts_stalled (b : bool) prev hl last :
  ends (if b then scanAllPorts config else Ret ()) prev (Halted hl) last →
  stalled last.
Proof.
  destruct b; [|by intros [? _]]. unfold scanAllPorts. intros H.
  apply ends_bind_inv in H as [(? & [= <-] & H)|(? & ? & _ & H)];
    [stall_here H|].
  apply ends_bind_inv in H as [(? & [= <-] & H)|(? & ? & _ & H)];
    stall_here H.
Qed.

Lemma pushToGit_try_stalled prev hl last :
  ends (pushToGit_try config) prev (Halted hl) last →
  (∃ e, hl = Rejects e) ∨ stalled last.
Proof.
  unfold pushToGit_try. intros H.
  do 10 (apply ends_bind_inv in H as [(? & [= <-] & H)|(? & ? & _ & H)];
         [stall_here H|]).
  by destruct H as [? [? ?]].
Qed.

Lemma pushToGit_stalled (b : bool) prev hl last :
  ends (if b then pushToGit config else Ret ()) prev (Halted hl) last →
  stalled last.
Proof.
  destruct b; [|by intros [? _]]. unfold pushToGit.
  intros [[H Hne]|(err & mid & _ & (? & ? & _))]%ends_try_catch_inv; [|done].
  apply pushToGit_try_stalled in H as [[e ->]|H]; [|done].
  by destruct (Hne e).
Qed.

Lemma main_stalled prev hl last :
  ends (main config) prev (Halted hl) last → hl = Exits ∨ stalled last.
Proof.
  unfold main. intros H.
  apply ends_bind_inv in H as [(? & [= <-] & H)|(? & ? & _ & H)];
    [right; by eapply scanDefaultPort_stalled|].
  apply ends_bind_inv in H as [(? & [= <-] & H)|(? & ? & _ & H)];
    [right; by eapply scanNearPorts_stalled|].
  apply ends_bind_inv in H as [(? & [= <-] & H)|(? & ? & _ & H)];
    [right; by eapply scanAllPorts_stalled|].
  apply ends_bind_inv in H as [(? & [= <-] & H)|(? & ? & _ & H)];
    [right; by eapply pushToGit_stalled|].
  destruct H as (? & [= <-] & _). by left.
Qed.
End Stuck.

(** X14. A run of [main] reaches [process.exit()] unless something stopped
    it: if it does not end by [process.exit()], its last step is a scan, a
    validation or a target-list build that failed, or a [simple-git] call
    whose promise never settled. *)
Theorem exit_unless_stalled (config : Config.t) (w : world) :
  let r := run w (main config) [] in
  r.2 = Halted Exits
  ∨ ∃ t s, r.1 = t ++ [s]
           ∧ (failed (called s) (got s) ∨ unsettled (called s) (got s)).
Proof.
  cbn zeta.
  pose proof (run_ends (main config) w None []) as He.
  destruct (run w (main config) []) as [t [a|hl]]; cbn [fst snd] in *.
  - by destruct (main_ends config _ _ _ He) as [(? & ? & _)|[? _]].
  - apply main_stalled in He as [->|He]; [by left|]. right.
    unfold last_or in He. destruct (last t) as [s|] eqn:E; [|done].
    apply last_Some in E as [t0 ->]. by exists t0, s.
Qed.

(** ** Nothing is done twice *)

Ltac place_tac :=
  unfold onward, place_of_step in *; cbn [called] in *;
  repeat match goal with
    | |- context [place ?c] =>
        let v := eval lazy in (place c) in change (place c) with v
    end;
  lia.

Lemma within {A} hi (p : prog A) :
  avoids (λ c, ¬ place c ≤ hi) p →
  ∀ prev e last, place_of_step prev ≤ hi → ends p prev e last →
    place_of_step last ≤ hi.
Proof.
  induction p as [a|hl|c k IH]; intros Hp prev e last Hprev; cbn [ends].
  - by intros [_ ->].
  - by intros [_ ->].
  - destruct Hp as [Hc Hk]. intros [r Hr].
    eapply (IH r (Hk r)); [|done]. cbn.
    destruct (decide (place c ≤ hi)); [done|by destruct Hc].
Qed.

Ltac solve_within :=
  solve_avoids;
  try (let Hn := fresh in intros Hn; apply Hn;
       repeat match goal with
         | |- context [place ?c] =>
             let v := eval lazy in (place c) in change (place c) with v
         end;
       lia).

Lemma publish_place c : publish c → place c ≤ 19.
Proof.
  destruct c as [| | | |[]| | | | |]; cbn; try done;
    intros _; repeat case_decide; lia.
Qed.

Section Onward.
Context (config : Config.t).

Lemma scanDefaultPort_within (b : bool) :
  avoids (λ c, ¬ place c ≤ 3) (if b then scanDefaultPort config else Ret ()).
Proof. destruct b; [|done]. solve_within. Qed.

Lemma scanNearPorts_within (b : bool) :
  avoids (λ c, ¬ place c ≤ 6) (if b then scanNearPorts config else Ret ()).
Proof. destruct b; [|done]. solve_within. Qed.

Lemma scanAllPorts_within (b : bool) :
  avoids (λ c, ¬ place c ≤ 9) (if b then scanAllPorts config else Ret ()).
Proof. destruct b; [|done]. solve_within. Qed.

Lemma pushToGit_within (b : bool) :
  avoids (λ c, ¬ place c ≤ 21) (if b then pushToGit config else Ret ()).
Proof. destruct b; [|done]. solve_within. Qed.

Lemma scanDefaultPort_onward prev :
  place_of_step prev < 2 → guarded onward prev (scanDefaultPort config).
Proof.
  intros Hp. unfold scanDefaultPort. apply guarded_bind.
  - apply guarded_masscan. intros r. place_tac.
  - intros a mid ->%ends_masscan. apply guarded_minecraftCheck.
    intros r. place_tac.
Qed.

Lemma scanNearPorts_onward prev :
  place_of_step prev < 4 → guarded onward prev (scanNearPorts config).
Proof.
  intros Hp. unfold scanNearPorts. apply guarded_bind.
  - apply guarded_buildInclude24s. intros r. place_tac.
  - intros a mid (world & -> & _)%ends_buildInclude24s. apply guarded_bind.
    + apply guarded_masscan. intros r. place_tac.
    + intros a' mid' ->%ends_masscan. apply guarded_minecraftCheck.
      intros r. place_tac.
Qed.

Lemma scanAllPorts_onward prev :
  place_of_step prev < 7 → guarded onward prev (scanAllPorts config).
Proof.
  intros Hp. unfold scanAllPorts. apply guarded_bind.
  - apply guarded_buildIncludeIps. intros r. place_tac.
  - intros a mid (world & -> & _)%ends_buildIncludeIps. apply guarded_bind.
    + apply guarded_masscan. intros r. place_tac.
    + intros a' mid' ->%ends_masscan. apply guarded_minecraftCheck.
      intros r. place_tac.
Qed.

Lemma pushToGit_onward prev :
  place_of_step prev < 10 → guarded onward prev (pushToGit config).
Proof.
  intros Hp. unfold pushToGit. apply guarded_try_catch.
  - unfold pushToGit_try.
    apply guarded_bind;
      [apply guarded_git; intros r; place_tac|intros ? ? ->%ends_git].
    apply guarded_bind;
      [apply guarded_git; intros r; place_tac|intros ? ? ->%ends_git].
    apply guarded_bind;
      [apply guarded_git; intros r; place_tac|intros ? ? ->%ends_git].
    apply guarded_bind;
      [apply guarded_getRemotes; intros r; place_tac
      |intros remotes ? ->%ends_getRemotes].
    apply guarded_bind.
    { case_decide; [|done]. apply guarded_git. intros r. place_tac. }
    intros ? afterIf Hif.
    assert (13 ≤ place_of_step afterIf ≤ 14) as Hle.
    { case_decide.
      - apply ends_git in Hif as ->. cbn. lia.
      - destruct Hif as [_ ->]. cbn. lia. }
    apply guarded_bind;
      [apply guarded_git; intros r; place_tac|intros ? ? ->%ends_git].
    apply guarded_bind;
      [apply guarded_git; intros r; place_tac|intros ? ? ->%ends_git].
    apply guarded_bind;
      [intros r; split; [place_tac|done]|intros now ? (r' & [= <-] & ->)].
    apply guarded_bind;
      [apply guarded_git; intros r; place_tac|intros ? ? ->%ends_git].
    apply guarded_bind;
      [apply guarded_git; intros r; place_tac|intros ? ? ->%ends_git].
    intros r. split; [place_tac|done].
  - intros e mid (c & r & -> & Hthrew)%pushToGit_try_throws.
    intros r'. split; [|done]. unfold onward. cbn.
    pose proof (publish_place c) as Hc.
    assert (publish c) as Hpub by (by destruct c).
    specialize (Hc Hpub). lia.
Qed.

Lemma main_onward : guarded onward None (main config).
Proof.
  unfold main.
  pose proof (within 3 _ (scanDefaultPort_within (Config.scanPort config)))
    as W1.
  pose proof (within 6 _ (scanNearPorts_within (Config.scan24s config)))
    as W2.
  pose proof (within 9 _ (scanAllPorts_within (Config.scanAllPorts config)))
    as W3.
  pose proof (within 21 _ (pushToGit_within (Config.push (Config.git config))))
    as W4.
  apply guarded_bind.
  { destruct (Config.scanPort config); [|done].
    apply scanDefaultPort_onward. cbn. lia. }
  intros ? m1 Hm1. apply W1 in Hm1; [|cbn; lia]. apply guarded_bind.
  { destruct (Config.scan24s config); [|done].
    apply scanNearPorts_onward. lia. }
  intros ? m2 Hm2. apply W2 in Hm2; [|lia]. apply guarded_bind.
  { destruct (Config.scanAllPorts config); [|done].
    apply scanAllPorts_onward. lia. }
  intros ? m3 Hm3. apply W3 in Hm3; [|lia]. apply guarded_bind.
  { destruct (Config.push (Config.git config)); [|done].
    apply pushToGit_onward. lia. }
  intros ? m4 Hm4. apply W4 in Hm4; [|lia].
  intros r. split; [|done]. unfold onward. cbn. lia.
Qed.
End Onward.

Lemma chain_onward_all t : ∀ prev,
  chain onward prev t →
  Forall (λ s, place_of_step prev < place (called s)) t.
Proof.
  induction t as [|s t IH]; intros prev; cbn [chain]; [done|].
  intros [Hs Ht]. constructor; [done|].
  eapply Forall_impl; [by apply IH|]. unfold onward in Hs. cbn. lia.
Qed.

(** X15. No retry, no loop: in every run of [main] the calls are made in
    the order of the program text, so of two steps the later one is a
    different call, further on in the text. In particular no scan, build,
    validation or [simple-git] call is made twice in a run. *)
Theorem no_step_repeated (config : Config.t) (w : world) :
  let t := (run w (main config) []).1 in
  ∀ t1 s1 t2 s2 t3,
    t = t1 ++ s1 :: t2 ++ s2 :: t3 →
    place (called s1) < place (called s2) ∧ called s1 ≠ called s2.
Proof.
  cbn zeta. intros t1 s1 t2 s2 t3 Ht.
  pose proof (guarded_run onward (main config) w None []
                (main_onward config)) as Hc.
  rewrite Ht in Hc. apply chain_app in Hc as [_ Hc].
  apply chain_onward_all in Hc. rewrite Forall_forall in Hc.
  assert (place (called s1) < place (called s2)) as Hlt
    by (apply (Hc s2); set_solver).
  split; [done|]. intros Heq. rewrite Heq in Hlt. lia.
Qed.

(** ** The theorems of this part on sample runs *)

Lemma scans_in_their_place_witness :
  ∃ t0 cmd label,
    [first_scan]
    = t0 ++ [Step (Masscan cmd "ipsUnfiltered_pass1" label) (Fulfilled ())].
Proof.
  refine (proj1 (scans_in_their_place sample_config calm)
            [first_scan] first_check
            (drop 2 (run calm (main sample_config) []).1)
            "ipsUnfiltered_pass1" ["ips"; "[1] [Java]"] _ _).
  - vm_compute. reflexivity.
  - reflexivity.
Defined.

Lemma publish_reports_witness :
  "Error pushing to repo:" = "Error pushing to repo:"
  ∧ ∃ t0 c r,
      take 15 (run push_refused (main sample_config) []).1 = t0 ++ [Step c r]
      ∧ publish_threw (Error "auth") c r.
Proof.
  refine (proj2 (publish_reports sample_config push_refused)
            (take 15 (run push_refused (main sample_config) []).1)
            (Step (ConsoleError "Error pushing to repo:" (Error "auth")) ())
            (drop 16 (run push_refused (main sample_config) []).1)
            "Error pushing to repo:" (Error "auth") _ _).
  - vm_compute. reflexivity.
  - reflexivity.
Defined.

Lemma publish_prepared_witness :
  "origin" = "origin"
  ∧ ∃ t0 names,
      take 9 (run calm (main sample_config) []).1
      = t0 ++ [Step GitGetRemotes (Fulfilled names)]
      ∧ "origin" ∈ names.
Proof.
  refine (proj1 (publish_prepared sample_config calm)
            (take 9 (run calm (main sample_config) []).1)
            (Step (Git (removeRemote "origin")) (Fulfilled ()))
            (drop 10 (run calm (main sample_config) []).1)
            "origin" _ _).
  - vm_compute. reflexivity.
  - reflexivity.
Defined.

Lemma stages_in_order_witness :
  stage_of (called first_scan) ≤ stage_of (IncludeIps "ips").
Proof.
  refine (proj1 (stages_in_order sample_config calm)
            [] first_scan [first_check]
            (Step (IncludeIps "ips")
               (sample_files, readStream sample_files "ips" [sample_log]))
            (drop 3 (run calm (main sample_config) []).1) _).
  vm_compute. reflexivity.
Defined.

Lemma no_step_repeated_witness :
  place (called first_scan) < place (called first_check)
  ∧ called first_scan ≠ called first_check.
Proof.
  refine (no_step_repeated sample_config calm
            [] first_scan [] first_check
            (drop 2 (run calm (main sample_config) []).1) _).
  vm_compute. reflexivity.
Defined.
